(** * Auditory traffic monitoring array: the detection pipeline of [test.py]

    A shallow embedding of [src/test.py] (loader, resampler, correlation
    matcher, direction inference, orchestrator) and the properties its
    specification states about it.

    Numeric model.  A finite sample is the rational number that the double
    stands for.  The arithmetic of the matcher is binary64: every product,
    sum and quotient is the exact result rounded to the nearest double
    ([round64]: 53 bits of mantissa, subnormal numbers, overflow to
    infinity), with the IEEE rules for infinities and nan, NumPy's rule
    that [np.max] propagates nan and IEEE's rule that every ordered
    comparison with nan is false.  The frame count of the resampler is
    computed on the exact quotient; [binary64_frame_count] is the same
    expression in binary64, and the two agree while the product of length
    and rate stays below [2^52].

    External libraries.  [soundfile], [scipy.signal.resample] and the
    [acoular] beam-forming chain are not part of the repository; they are
    Section variables, and where a property needs the documented contract
    of one of them, that contract is an explicit hypothesis of the
    property.  [scipy.signal.correlate] in [valid] mode is modelled by its
    direct method, which accumulates the products of a lag one after the
    other; the NumPy reductions are modelled from their documented
    definitions. *)

From Stdlib Require Import String Bool List ZArith QArith Qround Qpower Lia Lqa.
Import ListNotations.

Local Open Scope Q_scope.

(** ** Exceptions and outcomes *)

(** Exception classes that Python or one of the libraries raises. *)
Inductive py_exn : Type :=
| ValueError
| ZeroDivisionError
| RuntimeError
| IndexError.

(** The error taxonomy of the specification (section 7).  [test.py] defines
    none of these classes; no function below constructs them. *)
Inductive spec_error : Type :=
| UnreadableFormatError
| EmptyStreamError
| InvalidRateError
| GeometryMismatchError
| InvalidGridError.

Inductive exn : Type :=
| PyExc (e : py_exn)
| SpecErr (e : spec_error).

Inductive outcome (E A : Type) : Type :=
| Return (a : A)
| Raise (e : E).
Arguments Return {E A} a.
Arguments Raise {E A} e.

(** What a call into a library yields: a value or a Python exception. *)
Definition lib (A : Type) : Type := outcome py_exn A.
(** What a function of [test.py] yields. *)
Definition py (A : Type) : Type := outcome exn A.

Definition bind {E A B} (m : outcome E A) (k : A -> outcome E B) : outcome E B :=
  match m with
  | Return a => k a
  | Raise e => Raise e
  end.

(** An exception raised inside a library propagates unchanged. *)
Definition call {A} (m : lib A) : py A :=
  match m with
  | Return a => Return a
  | Raise e => Raise (PyExc e)
  end.

Declare Scope py_scope.
Delimit Scope py_scope with py.
Notation "x <- m ;; k" := (bind m (fun x => k))
  (at level 61, m at next level, right associativity) : py_scope.

(** ** Floating-point values *)

(** A NumPy float64: a finite value or one of the IEEE special values.  A
    finite value is the rational number that the double stands for; the
    sign of a zero is not recorded. *)
Inductive npfloat : Type :=
| Finite (q : Q)
| PosInf
| NegInf
| NaN.

(** Python's [round] on a float: to the nearest integer, a tie going to the
    even neighbour. *)
Definition py_round (q : Q) : Z :=
  let f := Qfloor q in
  match Qcompare (q - inject_Z f) (1 # 2) with
  | Lt => f
  | Gt => (f + 1)%Z
  | Eq => if Z.even f then f else (f + 1)%Z
  end.

Definition pow2 (e : Z) : Q := 2 ^ e.

(** [floor (log2 x)] for a positive [x]. *)
Definition floor_log2 (x : Q) : Z :=
  if Qle_bool 1 x then Z.log2 (Qfloor x)
  else (- Z.log2_up (Qceiling (/ x)))%Z.

(** The double nearest to a positive rational, a tie going to the even
    mantissa: 53 bits of mantissa, exponents of the last bit down to -1074
    (the subnormal numbers included), infinity from [2^1024] on. *)
Definition round64_pos (x : Q) : npfloat :=
  let e := (Z.max (floor_log2 x) (-1022) - 52)%Z in
  let y := Qred (inject_Z (py_round (x / pow2 e)) * pow2 e) in
  if Qle_bool (pow2 1024) y then PosInf else Finite y.

Definition np_neg (x : npfloat) : npfloat :=
  match x with
  | Finite q => Finite (- q)
  | PosInf => NegInf
  | NegInf => PosInf
  | NaN => NaN
  end.

(** What an IEEE 754 operation returns when its exact result is [x]:
    [x] rounded to the nearest double. *)
Definition round64 (x : Q) : npfloat :=
  match Qcompare x 0 with
  | Eq => Finite 0
  | Gt => round64_pos x
  | Lt => np_neg (round64_pos (- x))
  end.

(** [x + y] *)
Definition np_add (x y : npfloat) : npfloat :=
  match x, y with
  | NaN, _ => NaN
  | _, NaN => NaN
  | PosInf, NegInf => NaN
  | NegInf, PosInf => NaN
  | PosInf, _ => PosInf
  | _, PosInf => PosInf
  | NegInf, _ => NegInf
  | _, NegInf => NegInf
  | Finite a, Finite b => round64 (a + b)
  end.

(** [a * b] of two finite samples *)
Definition np_mul (a b : Q) : npfloat := round64 (a * b).

(** [x / y], as NumPy evaluates it: a division by zero warns and yields nan
    or a signed infinity, it does not raise.  A zero divisor is taken as
    [+0.0]: a sum that starts from [0.0] is never [-0.0]. *)
Definition np_div (x y : npfloat) : npfloat :=
  match x, y with
  | NaN, _ => NaN
  | _, NaN => NaN
  | Finite a, Finite b =>
      if Qeq_bool b 0 then
        if Qeq_bool a 0 then NaN
        else if Qle_bool 0 a then PosInf else NegInf
      else round64 (a / b)
  | Finite _, PosInf => Finite 0
  | Finite _, NegInf => Finite 0
  | PosInf, Finite b => if Qle_bool 0 b then PosInf else NegInf
  | NegInf, Finite b => if Qle_bool 0 b then NegInf else PosInf
  | PosInf, PosInf => NaN
  | PosInf, NegInf => NaN
  | NegInf, PosInf => NaN
  | NegInf, NegInf => NaN
  end.

(** [x > threshold] for a finite threshold. *)
Definition np_gt (x : npfloat) (threshold : Q) : bool :=
  match x with
  | Finite q => negb (Qle_bool q threshold)
  | PosInf => true
  | NegInf => false
  | NaN => false
  end.

(** The larger of two values, nan winning over everything. *)
Definition np_maximum (x y : npfloat) : npfloat :=
  match x, y with
  | NaN, _ => NaN
  | _, NaN => NaN
  | PosInf, _ => PosInf
  | _, PosInf => PosInf
  | NegInf, v => v
  | v, NegInf => v
  | Finite a, Finite b => if Qle_bool a b then Finite b else Finite a
  end.

(** [np.max] of an array, flattened: [ValueError] on a zero-size array,
    nan as soon as one entry is nan. *)
Definition np_max (l : list npfloat) : lib npfloat :=
  match l with
  | [] => Raise ValueError
  | x :: t => Return (fold_left np_maximum t x)
  end.

(** ** Arrays and signals *)

(** A two-dimensional float array of shape [(length rows, shape1)].  The
    column count is stored because an array of shape [(0, c)] still has
    [c] columns. *)
Record ndarray : Type := mk_ndarray {
  rows : list (list Q);
  shape1 : nat
}.

Definition shape0 (a : ndarray) : nat := length (rows a).

Definition wf_ndarray (a : ndarray) : Prop :=
  Forall (fun r => length r = shape1 a) (rows a).

(** [a[:n]] *)
Definition take (n : nat) (a : ndarray) : ndarray :=
  {| rows := firstn n (rows a); shape1 := shape1 a |}.

(** Row-major flattening. *)
Definition flatten (a : ndarray) : list Q := concat (rows a).

(** The column [j] of an array, as a list over the rows. *)
Definition column (j : nat) (a : ndarray) : list Q :=
  map (fun r => nth j r 0) (rows a).

(** A two-dimensional array of values that may be special, as the result
    of an arithmetic operation is. *)
Record float_array : Type := mk_float_array {
  values : list (list npfloat);
  columns : nat
}.

(** Row-major flattening. *)
Definition all_values (a : float_array) : list npfloat := concat (values a).

(** [acoular.TimeSamples]: the sample array (frames by channels) and the
    sampling rate. *)
Record TimeSamples : Type := mk_TimeSamples {
  data : ndarray;
  sample_freq : Z
}.

Definition num_channels (ts : TimeSamples) : nat := shape1 (data ts).
Definition num_samples (ts : TimeSamples) : nat := shape0 (data ts).

(** A signal recorded at 16 kHz. *)
Definition signal (frames : list (list Q)) (channels : nat) : TimeSamples :=
  {| data := {| rows := frames; shape1 := channels |}; sample_freq := 16000 |}.

(** ** scipy.signal.correlate, mode [valid] *)

(** The pairs of samples whose products make up the correlation at column
    lag [k] of a wide array [big] with a narrower one [small] of the same
    number of rows: every entry of [small] with the entry of [big] that
    lies [k] columns further on, row after row. *)
Definition products_at (k : nat) (big small : list (list Q)) : list (Q * Q) :=
  concat (map (fun p => combine (skipn k (fst p)) (snd p)) (combine big small)).

(** The inner loop of SciPy's direct method:
    [acc = 0; for each pair: acc += x * y], every operation in binary64. *)
Definition accumulate (pairs : list (Q * Q)) : npfloat :=
  fold_left (fun acc p => np_add acc (np_mul (fst p) (snd p))) pairs (Finite 0).

Definition lag_sum (big small : list (list Q)) (k : nat) : npfloat :=
  accumulate (products_at k big small).

(** The same products taken from the last to the first. *)
Definition lag_sum_backwards (big small : list (list Q)) (k : nat) : npfloat :=
  accumulate (rev (products_at k big small)).

(** [correlate(in1, in2, mode='valid')] for two arrays with the same number
    of rows, by the direct method: the lags at which the narrower array
    lies wholly inside the wider one.  When [in2] is the wider one SciPy
    exchanges the operands and works on the reversed arrays, so the
    products of a lag are accumulated from the last to the first, and the
    lags come out in reverse. *)
Definition correlate_valid (in1 in2 : ndarray) : float_array :=
  let c1 := shape1 in1 in
  let c2 := shape1 in2 in
  if (c2 <=? c1)%nat then
    {| values := [map (lag_sum (rows in1) (rows in2)) (seq 0 (c1 - c2 + 1)%nat)];
       columns := (c1 - c2 + 1)%nat |}
  else
    {| values := [rev (map (lag_sum_backwards (rows in2) (rows in1))
                          (seq 0 (c2 - c1 + 1)%nat))];
       columns := (c2 - c1 + 1)%nat |}.

(** ** match_car_sound *)

Open Scope py_scope.

(** The double that a decimal literal of the source denotes. *)
Definition literal (x : Q) : Q :=
  match round64 x with
  | Finite q => q
  | _ => x
  end.

(** [threshold=0.7] *)
Definition default_threshold : Q := literal (7 # 10).

(** The array after [correlation /= np.max(correlation)]. *)
Definition normalized (correlation : list npfloat) (m : npfloat) : list npfloat :=
  map (fun v => np_div v m) correlation.

Definition match_car_sound (reference_ts test_ts : TimeSamples) (threshold : Q)
  : py bool :=
  let ref_data := data reference_ts in
  let test_data := data test_ts in
  let min_length := Nat.min (shape0 ref_data) (shape0 test_data) in
  let ref_data := take min_length ref_data in
  let test_data := take min_length test_data in
  let correlation := all_values (correlate_valid test_data ref_data) in
  m <- call (np_max correlation) ;;
  let correlation := normalized correlation m in
  top <- call (np_max correlation) ;;
  Return (np_gt top threshold).

(** The flattened correlation array that [match_car_sound] normalizes
    (line 70). *)
Definition correlation_of (reference_ts test_ts : TimeSamples) : list npfloat :=
  let min_length :=
    Nat.min (shape0 (data reference_ts)) (shape0 (data test_ts)) in
  all_values (correlate_valid (take min_length (data test_ts))
                              (take min_length (data reference_ts))).

(** ** The correlation in exact arithmetic

    What the sums of products are as rational numbers; the properties
    below say when binary64 yields the same. *)

Definition Qsum (l : list Q) : Q := fold_right Qplus 0 l.

(** Sum of the products of the entries of [s] with the entries of [b] that
    start [k] positions further on. *)
Definition row_dot_at (k : nat) (b s : list Q) : Q :=
  Qsum (map (fun p => fst p * snd p) (combine (skipn k b) s)).

Definition exact_lag_sum (big small : list (list Q)) (k : nat) : Q :=
  Qsum (map (fun p => row_dot_at k (fst p) (snd p)) (combine big small)).

Definition exact_correlate_valid (in1 in2 : ndarray) : ndarray :=
  let c1 := shape1 in1 in
  let c2 := shape1 in2 in
  if (c2 <=? c1)%nat then
    {| rows := [map (exact_lag_sum (rows in1) (rows in2)) (seq 0 (c1 - c2 + 1)%nat)];
       shape1 := (c1 - c2 + 1)%nat |}
  else
    {| rows := [rev (map (exact_lag_sum (rows in2) (rows in1))
                        (seq 0 (c2 - c1 + 1)%nat))];
       shape1 := (c2 - c1 + 1)%nat |}.

Definition exact_correlation_of (reference_ts test_ts : TimeSamples) : list Q :=
  let min_length :=
    Nat.min (shape0 (data reference_ts)) (shape0 (data test_ts)) in
  flatten (exact_correlate_valid (take min_length (data test_ts))
                                 (take min_length (data reference_ts))).

Definition entry (a : ndarray) (i j : nat) : Q := nth j (nth i (rows a) []) 0.



(** [v] is [k / 2^p] for an integer [k] of magnitude at most [B]. *)
Definition scaled_integer (p : nat) (B : Z) (v : Q) : bool :=
  let n := (Qnum v * 2 ^ Z.of_nat p)%Z in
  ((n mod Z.pos (Qden v) =? 0) && (Z.abs (n / Z.pos (Qden v)) <=? B))%Z.

Definition rectangular (a : ndarray) : bool :=
  forallb (fun r => (length r =? shape1 a)%nat) (rows a).

(** A condition under which binary64 computes every product and every
    partial sum of the correlation of [a] and [b] without rounding,
    overflow or underflow, in whatever order the products are accumulated:
    all samples are multiples [k / 2^p] of one power of two with
    [|k| <= B], and the number of products of a lag (common frames times
    channels of the narrower array) times [B^2] stays below [2^53].
    Sixteen-bit audio read as floats has [p = 15] and [B = 2^15]. *)
Definition exact_in_binary64 (p : nat) (B : Z) (a b : ndarray) : bool :=
  rectangular a && rectangular b &&
  forallb (forallb (scaled_integer p B)) (rows a) &&
  forallb (forallb (scaled_integer p B)) (rows b) &&
  (p <=? 537)%nat &&
  (Z.of_nat (Nat.min (shape0 a) (shape0 b))
   * Z.of_nat (Nat.min (shape1 a) (shape1 b)) * (B * B) <? 2 ^ 53)%Z.

(** ** Direction inference (lines 94-96 of [test.py]) *)

Definition Qgtb (x y : Q) : bool := negb (Qle_bool x y).

(** Scan for the first position that holds the largest value: [best] is
    the position of the largest value [bv] seen before position [i]. *)
Fixpoint argmax_from (best : nat) (bv : Q) (i : nat) (l : list Q) : nat :=
  match l with
  | [] => best
  | x :: t =>
      if Qgtb x bv then argmax_from i x (S i) t
      else argmax_from best bv (S i) t
  end.

(** [np.argmax(a, axis=None)] on the flattened array. *)
Definition np_argmax (flat : list Q) : lib nat :=
  match flat with
  | [] => Raise ValueError
  | x :: t => Return (argmax_from 0 x 1 t)
  end.

(** [np.unravel_index(idx, (shape0, shape1))] for an index inside the
    array. *)
Definition unravel_index (idx : nat) (a : ndarray) : nat * nat :=
  ((idx / shape1 a)%nat, (idx mod shape1 a)%nat).

Inductive direction : Type :=
| left_to_right
| right_to_left.

Definition direction_of_map (Lm : ndarray) : py direction :=
  idx <- call (np_argmax (flatten Lm)) ;;
  let max_indices := unravel_index idx Lm in
  let x_direction := (Z.of_nat (snd max_indices) - Z.of_nat (shape1 Lm / 2))%Z in
  Return (if (0 <? x_direction)%Z then left_to_right else right_to_left).

(** [i] is the first position of [l] that holds its largest value. *)
Definition first_max (l : list Q) (i : nat) : Prop :=
  (i < length l)%nat /\
  (forall j, (j < length l)%nat -> nth j l 0 <= nth i l 0) /\
  (forall j, (j < i)%nat -> nth j l 0 < nth i l 0).

(** ** Objects, output and the world a run acts on *)

(** Objects live in a store and are handed around by reference, so that
    "the same object" and "a new object" can be told apart. *)
Definition ref : Type := nat.
Definition heap : Type := list TimeSamples.

Definition deref (h : heap) (r : ref) : option TimeSamples := nth_error h r.

(** What the [print] calls of [test.py] write.  [stdout] below is the
    sequence of these lines; what a library writes to the terminal on its
    own account is not recorded. *)
Inductive output : Type :=
| CarDetected (file : string) (d : direction)
| TotalCars (n : Z)
| DetectionTimes (times : list Q).

Record world : Type := mk_world {
  objects : heap;
  stdout : list output;
  clock : Q
}.

Definition io (A : Type) : Type := world -> world * py A.

Definition ret {A} (a : A) : io A := fun w => (w, Return a).

Definition iobind {A B} (m : io A) (k : A -> io B) : io B :=
  fun w =>
    match m w with
    | (w', Return a) => k a w'
    | (w', Raise e) => (w', Raise e)
    end.

Definition lift {A} (m : py A) : io A := fun w => (w, m).

Declare Scope io_scope.
Delimit Scope io_scope with io.
Notation "x <- m ;; k" := (iobind m (fun x => k))
  (at level 61, m at next level, right associativity) : io_scope.
Notation "m ;; k" := (iobind m (fun _ => k))
  (at level 61, right associativity) : io_scope.

(** The world after a fresh signal object has been added. *)
Definition with_new (w : world) (d : ndarray) (fs : Z) : world :=
  {| objects := objects w ++ [{| data := d; sample_freq := fs |}];
     stdout := stdout w;
     clock := clock w |}.

(** [acoular.TimeSamples(data=..., sample_freq=...)]: a fresh object. *)
Definition new_TimeSamples (d : ndarray) (fs : Z) : io ref :=
  fun w => (with_new w d fs, Return (length (objects w))).

(** Reading through a reference.  Python has no dangling references; the
    error branch is there to keep the function total. *)
Definition get_ts (r : ref) : io TimeSamples :=
  fun w =>
    match deref (objects w) r with
    | Some ts => (w, Return ts)
    | None => (w, Raise (PyExc RuntimeError))
    end.

Definition print (o : output) : io unit :=
  fun w =>
    ({| objects := objects w; stdout := stdout w ++ [o]; clock := clock w |},
     Return tt).

(** [time.time()] *)
Definition time_time : io Q := fun w => (w, Return (clock w)).


(** ** Library types *)

(** What [soundfile.read] hands back: a one-dimensional array for a mono
    file, a frames-by-channels array otherwise. *)
Inductive sf_data : Type :=
| Data1D (samples : list Q)
| Data2D (frames : ndarray).

(** [acoular.MicGeom]: one position per microphone. *)
Definition MicGeom : Type := list (Q * Q * Q).

Record RectGrid : Type := mk_RectGrid {
  x_min : Q; x_max : Q;
  y_min : Q; y_max : Q;
  z : Q;
  increment : Q
}.

Definition default_ref_freq : Z := 8000.

(** [round(len(data) * float(target_fs) / fs)], on the exact quotient; the
    division raises when [fs] is zero. *)
Definition resampled_length (len : nat) (target_fs fs : Z) : py Z :=
  if (fs =? 0)%Z then Raise (PyExc ZeroDivisionError)
  else Return (py_round (inject_Z (Z.of_nat len) * inject_Z target_fs / inject_Z fs)).

(** The same expression as binary64 evaluates it, for a rate [fs] that is
    a double: the two integers are converted to doubles, then the product
    and the quotient are rounded.  [round] has no answer for an infinity
    or a nan, and a conversion none for an integer beyond the doubles. *)
Definition binary64_frame_count (len : nat) (target_fs fs : Z) : option Z :=
  match round64 (inject_Z (Z.of_nat len)), round64 (inject_Z target_fs) with
  | Finite l, Finite r =>
      match np_div (np_mul l r) (Finite (inject_Z fs)) with
      | Finite q => Some (py_round q)
      | _ => None
      end
  | _, _ => None
  end.

(** The bound under which [binary64_frame_count] rounds nothing that
    matters. *)
Definition count_within_binary64 (len : nat) (target_fs fs : Z) : Prop :=
  (Z.of_nat len * target_fs < 2 ^ 52)%Z /\
  (target_fs < 2 ^ 53)%Z /\ (fs < 2 ^ 53)%Z.

(** The array with the single column [j] of [a]. *)
Definition single_channel (j : nat) (a : ndarray) : ndarray :=
  {| rows := map (fun r => [nth j r 0]) (rows a); shape1 := 1 |}.

(** ** Notions used to state further properties *)

(** [x <= y] for two values that are not nan. *)
Definition np_leq (x y : npfloat) : Prop :=
  match x, y with
  | NaN, _ => False
  | _, NaN => False
  | NegInf, _ => True
  | _, PosInf => True
  | Finite a, Finite b => a <= b
  | _, _ => False
  end.

(** The same value: a finite value may be written as different
    fractions. *)
Definition same_value (x y : npfloat) : Prop :=
  match x, y with
  | Finite a, Finite b => a == b
  | PosInf, PosInf => True
  | NegInf, NegInf => True
  | NaN, NaN => True
  | _, _ => False
  end.

(** What decides the matcher, read off lines 70-73: the largest
    correlation value [m] is finite and not zero, and some value divided by
    it exceeds the threshold. *)
Definition exceeds_after_normalizing (correlation : list npfloat)
    (threshold : Q) : Prop :=
  exists m v,
    In (Finite m) correlation /\
    Forall (fun x => np_leq x (Finite m)) correlation /\
    ~ m == 0 /\ In v correlation /\
    np_gt (np_div v (Finite m)) threshold = true.

(** The same recording with another sample array. *)
Definition with_data (ts : TimeSamples) (d : ndarray) : TimeSamples :=
  {| data := d; sample_freq := sample_freq ts |}.

(** Frames added after the last one. *)
Definition append_frames (a : ndarray) (extra : list (list Q)) : ndarray :=
  {| rows := rows a ++ extra; shape1 := shape1 a |}.

(** A function applied to every cell. *)
Definition map_cells (f : Q -> Q) (a : ndarray) : ndarray :=
  {| rows := map (map f) (rows a); shape1 := shape1 a |}.

(** Every sample is zero. *)
Definition silent (a : ndarray) : Prop :=
  Forall (Forall (fun v => v == 0)) (rows a).

(** The frames-by-channels array that the loader makes of what was read
    (lines 21-22). *)
Definition as_frames (d : sf_data) : ndarray :=
  match d with
  | Data1D samples => {| rows := map (fun x => [x]) samples; shape1 := 1 |}
  | Data2D frames => frames
  end.

(** The world after some lines were printed. *)
Definition with_output (w : world) (lines : list output) : world :=
  {| objects := objects w; stdout := stdout w ++ lines; clock := clock w |}.

(** ** Library contracts *)

(** What the resampling library documents: for an input with at least one
    frame and a requested count of at least one, the result has exactly
    that many frames and the input's channels, each channel being the
    resampling of the same channel of the input. *)
Definition resample_contract
    (scipy_signal_resample : ndarray -> Z -> lib ndarray) : Prop :=
  forall x num,
    wf_ndarray x -> (1 <= shape0 x)%nat -> (1 <= num)%Z ->
    exists y,
      scipy_signal_resample x num = Return y /\
      Z.of_nat (shape0 y) = num /\
      shape1 y = shape1 x /\
      wf_ndarray y /\
      forall j, (j < shape1 x)%nat ->
        exists yj,
          scipy_signal_resample (single_channel j x) num = Return yj /\
          column j y = column 0 yj.

(** The Fourier transform of an axis without entries is rejected. *)
Definition rejects_empty_input
    (scipy_signal_resample : ndarray -> Z -> lib ndarray) : Prop :=
  forall x num, shape0 x = 0%nat -> exists e, scipy_signal_resample x num = Raise e.

(** ** Stand-ins for the libraries

    Small executable replacements for the external libraries, used to run
    the pipeline on concrete inputs. *)
Module Stub.

Definition mono_tone : list Q := [1; -1; 1; -1].

Definition four_mics : ndarray :=
  {| rows := [[1; 0; 0; 0]; [0; 1; 0; 0]; [1; 1; 0; 0]; [0; 0; 1; 1]];
     shape1 := 4 |}.

Definition car_data : ndarray :=
  {| rows := [[1]; [-1]; [1]; [-1]]; shape1 := 1 |}.

(** [soundfile.read]: three files exist, every other path fails. *)
Definition sf_read (path : string) : lib (sf_data * Z) :=
  if String.eqb path "car.wav" then Return (Data1D mono_tone, 16000%Z)
  else if String.eqb path "event.wav" then Return (Data2D four_mics, 16000%Z)
  else if String.eqb path "silence.wav" then Return (Data1D [0; 0; 0; 0], 16000%Z)
  else Raise RuntimeError.

(** Sample-and-hold resampling: every output frame repeats the first
    input frame.  An empty input or a count below one is rejected. *)
Definition scipy_signal_resample (x : ndarray) (num : Z) : lib ndarray :=
  match rows x with
  | [] => Raise ValueError
  | r :: _ =>
      if (num <=? 0)%Z then Raise ValueError
      else Return {| rows := repeat r (Z.to_nat num); shape1 := shape1 x |}
  end.

Definition linear_array (n : nat) : MicGeom :=
  map (fun i => (inject_Z (Z.of_nat i), 0, 0)) (seq 0 n).

Definition MicGeom_from_file (path : string) : lib MicGeom :=
  if String.eqb path "4_linear.xml" then Return (linear_array 4)
  else if String.eqb path "2_linear.xml" then Return (linear_array 2)
  else Raise RuntimeError.

(** Three rows of five cells; the largest value, 40, first occurs in
    row 1, column 3. *)
Definition power_map : ndarray :=
  {| rows := [[10; 20; 30; 20; 10];
              [10; 20; 30; 40; 10];
              [10; 40; 30; 40; 10]];
     shape1 := 5 |}.

(** A power map that does not depend on the recording; a channel count
    that differs from the microphone count is rejected. *)
Definition synthetic_Lp (ts : TimeSamples) (mg : MicGeom) (grid : RectGrid)
    (freq : Z) : lib ndarray :=
  if (num_channels ts =? length mg)%nat then Return power_map
  else Raise ValueError.

Definition basename (path : string) : string := path.

(** The four-microphone recording as a signal object. *)
Definition event : TimeSamples :=
  {| data := four_mics; sample_freq := 16000 |}.

(** The world before a run, and a world that holds [event]. *)
Definition start : world :=
  {| objects := []; stdout := []; clock := 1700000000 |}.

Definition loaded : world :=
  {| objects := [event]; stdout := []; clock := 1700000000 |}.

End Stub.

(** ** The functions that call into the libraries *)

Section Pipeline.

(** [soundfile.read(path)] *)
Variable sf_read : string -> lib (sf_data * Z).
(** [scipy.signal.resample(x, num)], along axis 0 *)
Variable scipy_signal_resample : ndarray -> Z -> lib ndarray.
(** [acoular.MicGeom(from_file=path)] *)
Variable MicGeom_from_file : string -> lib MicGeom.
(** Lines 88 and 90-93: the spectra, the steering vectors, the beamformer
    and [L_p(bb.synthetic(ref_freq, 3))], given the microphone geometry.
    What the chain writes to the terminal on the way (acoular names its
    cache file) is not part of the value. *)
Variable synthetic_Lp : TimeSamples -> MicGeom -> RectGrid -> Z -> lib ndarray.
(** [os.path.basename] *)
Variable basename : string -> string.

Open Scope io_scope.

Definition load_audio_from_wav (wav_file : string) : io ref :=
  r <- lift (call (sf_read wav_file)) ;;
  let '(d, samplerate) := r in
  (* Ensure data is 2D even for single-channel audio *)
  let d :=
    match d with
    | Data1D samples => {| rows := map (fun x => [x]) samples; shape1 := 1 |}
    | Data2D frames => frames
    end in
  new_TimeSamples d samplerate.

Definition resample_acoular_ts (ts : ref) (target_fs : Z) : io ref :=
  obj <- get_ts ts ;;
  let d := data obj in
  let fs := sample_freq obj in
  if negb (fs =? target_fs)%Z then
    num_samples <- lift (resampled_length (shape0 d) target_fs fs) ;;
    data_resampled <- lift (call (scipy_signal_resample d num_samples)) ;;
    new_TimeSamples data_resampled target_fs
  else
    ret ts.

Definition beamform_and_detect_direction (test_ts : TimeSamples)
    (mic_array_geometry : string) (grid : RectGrid) (ref_freq : Z)
  : py direction :=
  (mg <- call (MicGeom_from_file mic_array_geometry) ;;
   Lm <- call (synthetic_Lp test_ts mg grid ref_freq) ;;
   direction_of_map Lm)%py.

Definition search_grid : RectGrid :=
  {| x_min := -1; x_max := 1; y_min := -1; y_max := 1;
     z := 3 # 10; increment := 5 # 100 |}.

(** The two locals of [main] when it returns. *)
Record report : Type := mk_report {
  total_cars : Z;
  times : list Q
}.

Definition main (stationary_car_wav_file input_wav_file mic_array_geometry : string)
  : io report :=
  let cars_detected := 0%Z in
  let detection_times := @nil Q in
  reference_ts <- load_audio_from_wav stationary_car_wav_file ;;
  test_ts <- load_audio_from_wav input_wav_file ;;
  (* Ensure same sampling rate *)
  reference <- get_ts reference_ts ;;
  test_ts <- resample_acoular_ts test_ts (sample_freq reference) ;;
  test <- get_ts test_ts ;;
  matched <- lift (match_car_sound reference test default_threshold) ;;
  found <-
    (if matched : bool then
       d <- lift (beamform_and_detect_direction test mic_array_geometry
                    search_grid default_ref_freq) ;;
       print (CarDetected (basename input_wav_file) d) ;;
       now <- time_time ;;
       ret {| total_cars := cars_detected + 1;
              times := detection_times ++ [now] |}
     else
       ret {| total_cars := cars_detected;
              times := detection_times |}) ;;
  print (TotalCars (total_cars found)) ;;
  print (DetectionTimes (times found)) ;;
  ret found.

End Pipeline.

(** * Properties *)

(** ** Rounding *)

Lemma py_round_within_half q :
  - (1 # 2) <= inject_Z (py_round q) - q /\ inject_Z (py_round q) - q <= 1 # 2.
Proof.
  unfold py_round.
  pose proof (Qfloor_le q) as Hlo. pose proof (Qlt_floor q) as Hhi.
  rewrite inject_Z_plus in Hhi.
  change (inject_Z 1) with 1 in Hhi.
  destruct (Qcompare (q - inject_Z (Qfloor q)) (1 # 2)) eqn:E.
  - apply Qeq_alt in E. destruct (Z.even (Qfloor q)).
    + split; lra.
    + rewrite inject_Z_plus. change (inject_Z 1) with 1. split; lra.
  - apply Qlt_alt in E. split; lra.
  - apply Qgt_alt in E. rewrite inject_Z_plus. change (inject_Z 1) with 1.
    split; lra.
Qed.

Lemma py_round_comp x y : x == y -> py_round x = py_round y.
Proof.
  intros H. unfold py_round. rewrite (Qfloor_comp _ _ H).
  assert (Ec : Qcompare (x - inject_Z (Qfloor y)) (1 # 2)
               = Qcompare (y - inject_Z (Qfloor y)) (1 # 2)).
  { apply Qcompare_comp; [rewrite H |]; reflexivity. }
  now rewrite Ec.
Qed.

(** An integer bound on a value bounds its rounding. *)
Lemma py_round_le_integer q n : q <= inject_Z n -> (py_round q <= n)%Z.
Proof.
  intros H. destruct (py_round_within_half q) as [_ Hhi].
  assert (Hlt : inject_Z (py_round q) < inject_Z (n + 1)).
  { rewrite inject_Z_plus. change (inject_Z 1) with 1. lra. }
  rewrite <- Zlt_Qlt in Hlt. lia.
Qed.

Lemma py_round_nonneg q : 0 <= q -> (0 <= py_round q)%Z.
Proof.
  intros H. destruct (py_round_within_half q) as [Hlo _].
  assert (Hlt : inject_Z (-1) < inject_Z (py_round q)).
  { change (inject_Z (-1)) with (-1). lra. }
  rewrite <- Zlt_Qlt in Hlt. lia.
Qed.

Lemma pow2_pos e : 0 < pow2 e.
Proof. apply Qpower_0_lt. reflexivity. Qed.

Lemma pow2_nonpos_exponent e :
  (e <= 0)%Z -> pow2 e == / inject_Z (2 ^ (- e)).
Proof.
  intros H. unfold pow2.
  replace e with (- (- e))%Z at 1 by lia.
  rewrite Qpower_opp. apply Qinv_comp.
  symmetry. apply (Zpower_Qpower 2). lia.
Qed.

Lemma floor_log2_le_one x : x <= 1 -> (floor_log2 x <= 0)%Z.
Proof.
  intros H. unfold floor_log2. destruct (Qle_bool 1 x) eqn:E.
  - apply Qle_bool_iff in E.
    assert (E1 : x == inject_Z 1) by (apply Qle_antisym; assumption).
    rewrite (Qfloor_comp _ _ E1), Qfloor_Z. reflexivity.
  - pose proof (Z.log2_up_nonneg (Qceiling (/ x))). lia.
Qed.

Lemma floor_log2_comp x y : x == y -> floor_log2 x = floor_log2 y.
Proof.
  intros H. unfold floor_log2.
  rewrite (Qleb_comp 1 1 (Qeq_refl 1) x y H).
  rewrite (Qfloor_comp _ _ H).
  rewrite (Qceiling_comp (/ x) (/ y)) by (now rewrite H).
  reflexivity.
Qed.

Lemma round64_pos_comp x y : x == y -> round64_pos x = round64_pos y.
Proof.
  intros H. unfold round64_pos. rewrite (floor_log2_comp _ _ H).
  set (e := (Z.max (floor_log2 y) (-1022) - 52)%Z).
  rewrite (py_round_comp (x / pow2 e) (y / pow2 e)) by (now rewrite H).
  reflexivity.
Qed.

(** Rounding does not tell apart two representations of one rational. *)
Lemma round64_comp x y : x == y -> round64 x = round64 y.
Proof.
  intros H. unfold round64.
  rewrite (Qcompare_comp x y H 0 0 (Qeq_refl 0)).
  destruct (y ?= 0); [reflexivity | |].
  - f_equal. apply round64_pos_comp. now rewrite H.
  - now apply round64_pos_comp.
Qed.

Lemma round64_one : round64 1 = Finite 1.
Proof. vm_compute. reflexivity. Qed.

Lemma one_below_overflow : 1 < pow2 1024.
Proof. apply Qpower_1_lt; [reflexivity | lia]. Qed.

(** The rounding of a positive value is not negative. *)
Lemma round64_pos_nonneg x :
  0 < x ->
  round64_pos x = PosInf \/ exists q, round64_pos x = Finite q /\ 0 <= q.
Proof.
  intros Hx. unfold round64_pos.
  set (e := (Z.max (floor_log2 x) (-1022) - 52)%Z).
  destruct (Qle_bool _ _); [now left | right].
  eexists. split; [reflexivity |]. rewrite Qred_correct.
  apply Qmult_le_0_compat.
  - change 0 with (inject_Z 0). rewrite <- Zle_Qle. apply py_round_nonneg.
    apply Qle_shift_div_l; [apply pow2_pos |]. rewrite Qmult_0_l.
    now apply Qlt_le_weak.
  - apply Qlt_le_weak, pow2_pos.
Qed.

(** 1 is a double, so no value at most 1 rounds above it. *)
Lemma round64_le_one x : x <= 1 -> np_leq (round64 x) (Finite 1).
Proof.
  intros Hx. unfold round64. destruct (Qcompare x 0) eqn:E.
  - simpl. discriminate.
  - apply Qlt_alt in E.
    assert (Hn : 0 < - x) by lra.
    destruct (round64_pos_nonneg _ Hn) as [-> | [q [-> Hq]]]; simpl; [exact I |].
    lra.
  - apply Qgt_alt in E. unfold round64_pos.
    set (e := (Z.max (floor_log2 x) (-1022) - 52)%Z).
    assert (He : (e <= 0)%Z).
    { pose proof (floor_log2_le_one x Hx). unfold e. lia. }
    pose proof (pow2_nonpos_exponent e He) as Ep.
    assert (HN : 0 < inject_Z (2 ^ (- e))).
    { change 0 with (inject_Z 0). rewrite <- Zlt_Qlt.
      apply Z.pow_pos_nonneg; lia. }
    assert (Hm : (py_round (x / pow2 e) <= 2 ^ (- e))%Z).
    { apply py_round_le_integer. rewrite Ep. unfold Qdiv.
      rewrite Qinv_involutive.
      rewrite <- (Qmult_1_l (inject_Z (2 ^ (- e)))) at 2.
      apply Qmult_le_compat_r; [exact Hx | now apply Qlt_le_weak]. }
    revert Hm. generalize (py_round (x / pow2 e)). intros m Hm.
    assert (Hy : inject_Z m * pow2 e <= 1).
    { rewrite Ep. apply Qle_shift_div_r; [exact HN |]. rewrite Qmult_1_l.
      now rewrite <- Zle_Qle. }
    destruct (Qle_bool _ _) eqn:Eo.
    + apply Qle_bool_iff in Eo. rewrite Qred_correct in Eo.
      exfalso. apply (Qlt_irrefl 1).
      eapply Qlt_le_trans; [apply one_below_overflow |].
      eapply Qle_trans; eauto.
    + unfold np_leq. now rewrite Qred_correct.
Qed.

Lemma round64_pos_not_nan x : round64_pos x <> NaN.
Proof. unfold round64_pos. destruct (Qle_bool _ _); discriminate. Qed.

Lemma round64_not_nan x : round64 x <> NaN.
Proof.
  unfold round64. destruct (Qcompare x 0); try discriminate.
  - pose proof (round64_pos_not_nan (- x)).
    destruct (round64_pos (- x)); simpl; congruence.
  - apply round64_pos_not_nan.
Qed.

(** ** floor_log2 from below *)

Lemma pow2_nonneg_exponent e : (0 <= e)%Z -> pow2 e == inject_Z (2 ^ e).
Proof. intros H. unfold pow2. symmetry. now apply (Zpower_Qpower 2). Qed.

Lemma pow2_le a b : (a <= b)%Z -> pow2 a <= pow2 b.
Proof. intros H. unfold pow2. apply Qpower_le_compat_l; [exact H | discriminate]. Qed.

Lemma pow2_lt_inv a b : pow2 a < pow2 b -> (a < b)%Z.
Proof. intros H. apply (Qpower_lt_compat_l_inv 2); [exact H | reflexivity]. Qed.

Lemma pow2_plus a b : pow2 (a + b) == pow2 a * pow2 b.
Proof. unfold pow2. apply Qpower_plus. discriminate. Qed.

Lemma floor_log2_below x : 0 < x -> pow2 (floor_log2 x) <= x.
Proof.
  intros Hx. unfold floor_log2. destruct (Qle_bool 1 x) eqn:E.
  - apply Qle_bool_iff in E.
    assert (Hf : (1 <= Qfloor x)%Z).
    { change 1%Z with (Qfloor 1). now apply Qfloor_resp_le. }
    destruct (Z.log2_spec (Qfloor x)) as [Hlo _]; [lia |].
    rewrite pow2_nonneg_exponent by apply Z.log2_nonneg.
    eapply Qle_trans; [| apply Qfloor_le].
    now rewrite <- Zle_Qle.
  - set (c := Qceiling (/ x)).
    assert (Hix : 0 < / x) by now apply Qinv_lt_0_compat.
    assert (Hc : / x <= inject_Z c) by apply Qle_ceiling.
    assert (Hc0 : (0 < c)%Z).
    { rewrite Zlt_Qlt. eapply Qlt_le_trans; eauto. }
    assert (Hc2 : (c <= 2 ^ Z.log2_up c)%Z).
    { apply Z.log2_up_le_pow2; [exact Hc0 | lia]. }
    rewrite pow2_nonpos_exponent
      by (pose proof (Z.log2_up_nonneg c); lia).
    rewrite Z.opp_involutive.
    assert (Hp : / x <= inject_Z (2 ^ Z.log2_up c)).
    { eapply Qle_trans; [exact Hc |]. now rewrite <- Zle_Qle. }
    assert (Hpp : 0 < inject_Z (2 ^ Z.log2_up c)).
    { eapply Qlt_le_trans; eauto. }
    apply Qle_shift_inv_r; [exact Hpp |].
    assert (E1 : 1 == x * / x).
    { rewrite Qmult_inv_r; [reflexivity |].
      intro E0. rewrite E0 in Hx. now apply Qlt_irrefl in Hx. }
    rewrite E1. apply Qmult_le_l; assumption.
Qed.

(** ** Values that binary64 holds exactly *)

Lemma py_round_integer n : py_round (inject_Z n) = n.
Proof.
  unfold py_round. rewrite Qfloor_Z.
  assert (E : Qcompare (inject_Z n - inject_Z n) (1 # 2) = Lt).
  { apply Qlt_alt.
    assert (E0 : inject_Z n - inject_Z n == 0) by ring.
    rewrite E0. reflexivity. }
  now rewrite E.
Qed.

Lemma py_round_eq q n : q == inject_Z n -> py_round q = n.
Proof.
  intros H. rewrite (py_round_comp _ _ H). apply py_round_integer.
Qed.

Lemma inject_Z_pow2_pos n : (0 <= n)%Z -> 0 < inject_Z (2 ^ n).
Proof.
  intros H. change 0 with (inject_Z 0). rewrite <- Zlt_Qlt.
  apply Z.pow_pos_nonneg; lia.
Qed.

Lemma round64_pos_exact x k p :
  x == inject_Z k / inject_Z (2 ^ p) ->
  (0 < k < 2 ^ 53)%Z -> (0 <= p <= 1074)%Z ->
  exists q, round64_pos x = Finite q /\ q == x.
Proof.
  intros Ex Hk Hp.
  pose proof (inject_Z_pow2_pos p (proj1 Hp)) as H2p.
  assert (Hx : 0 < x).
  { rewrite Ex. apply Qlt_shift_div_l; [exact H2p |]. rewrite Qmult_0_l.
    change 0 with (inject_Z 0). rewrite <- Zlt_Qlt. lia. }
  assert (Hlt : x < pow2 (53 - p)).
  { replace (53 - p)%Z with (53 + - p)%Z by lia.
    rewrite pow2_plus, (pow2_nonpos_exponent (- p)) by lia.
    rewrite Z.opp_involutive, Ex.
    rewrite pow2_nonneg_exponent by lia.
    unfold Qdiv. apply Qmult_lt_compat_r.
    - now apply Qinv_lt_0_compat.
    - rewrite <- Zlt_Qlt. lia. }
  unfold round64_pos.
  set (e := (Z.max (floor_log2 x) (-1022) - 52)%Z).
  assert (He : (e <= - p)%Z).
  { assert (floor_log2 x < 53 - p)%Z.
    { apply pow2_lt_inv. eapply Qle_lt_trans; [apply floor_log2_below |]; eauto. }
    unfold e. lia. }
  assert (Em : x / pow2 e == inject_Z (k * 2 ^ (- e - p))).
  { rewrite (pow2_nonpos_exponent e) by lia.
    replace (- e)%Z with (p + (- e - p))%Z at 1 by lia.
    rewrite Z.pow_add_r by lia.
    rewrite Ex, !inject_Z_mult.
    pose proof (inject_Z_pow2_pos (- e - p)) as H2.
    field. split.
    - intro E0. rewrite E0 in H2. apply (Qlt_irrefl 0). apply H2. lia.
    - intro E0. rewrite E0 in H2p. now apply Qlt_irrefl in H2p. }
  rewrite (py_round_eq _ _ Em).
  assert (Ey : inject_Z (k * 2 ^ (- e - p)) * pow2 e == x).
  { rewrite <- Em. field. intro E0. pose proof (pow2_pos e) as H.
    rewrite E0 in H. now apply Qlt_irrefl in H. }
  destruct (Qle_bool _ _) eqn:Eo.
  - exfalso. apply Qle_bool_iff in Eo. rewrite Qred_correct, Ey in Eo.
    assert (H1 : pow2 (53 - p) <= pow2 1024) by (apply pow2_le; lia).
    apply (Qlt_irrefl x). eapply Qlt_le_trans; [exact Hlt |].
    eapply Qle_trans; eauto.
  - eexists. split; [reflexivity |]. now rewrite Qred_correct.
Qed.

(** A value [k / 2^p] with [|k| < 2^53] and [p <= 1074] is a double:
    rounding returns it. *)
Lemma round64_exact x k p :
  x == inject_Z k / inject_Z (2 ^ p) ->
  (Z.abs k < 2 ^ 53)%Z -> (0 <= p <= 1074)%Z ->
  exists q, round64 x = Finite q /\ q == x.
Proof.
  intros Ex Hk Hp. unfold round64.
  pose proof (inject_Z_pow2_pos p (proj1 Hp)) as H2p.
  destruct (Qcompare x 0) eqn:E.
  - apply Qeq_alt in E. exists 0. split; [reflexivity | now symmetry].
  - apply Qlt_alt in E.
    assert (Hk0 : (k < 0)%Z).
    { destruct (Z.lt_ge_cases k 0) as [H | H]; [exact H | exfalso].
      apply (Qlt_irrefl 0). eapply Qle_lt_trans; [| exact E].
      rewrite Ex. apply Qle_shift_div_l; [exact H2p |]. rewrite Qmult_0_l.
      change 0 with (inject_Z 0). now rewrite <- Zle_Qle. }
    destruct (round64_pos_exact (- x) (- k) p) as [q [Hq Eq]]; try lia.
    { rewrite Ex, inject_Z_opp. field. intro E0. rewrite E0 in H2p.
      now apply Qlt_irrefl in H2p. }
    rewrite Hq. simpl. exists (- q). split; [reflexivity |].
    rewrite Eq. ring.
  - apply Qgt_alt in E.
    assert (Hk0 : (0 < k)%Z).
    { destruct (Z.lt_ge_cases 0 k) as [H | H]; [exact H | exfalso].
      apply (Qlt_irrefl 0). eapply Qlt_le_trans; [exact E |].
      rewrite Ex. apply Qle_shift_div_r; [exact H2p |]. rewrite Qmult_0_l.
      change 0 with (inject_Z 0). now rewrite <- Zle_Qle. }
    apply (round64_pos_exact x k p); try assumption. lia.
Qed.

(** ** The rounding error *)

Lemma round64_pos_error x :
  pow2 (-1022) <= x -> x < pow2 1023 ->
  exists q, round64_pos x = Finite q /\
            - (x * pow2 (-53)) <= q - x /\ q - x <= x * pow2 (-53).
Proof.
  intros Hlo Hhi.
  assert (Hx : 0 < x) by (eapply Qlt_le_trans; [apply (pow2_pos (-1022)) | exact Hlo]).
  unfold round64_pos.
  set (e := (Z.max (floor_log2 x) (-1022) - 52)%Z).
  assert (He : pow2 e <= x * pow2 (-52)).
  { unfold e. destruct (Z.max_spec (floor_log2 x) (-1022)) as [[_ ->] | [_ ->]].
    - change (-1022 - 52)%Z with (-1022 + -52)%Z. rewrite pow2_plus.
      apply Qmult_le_compat_r; [exact Hlo | apply Qlt_le_weak, pow2_pos].
    - replace (floor_log2 x - 52)%Z with (floor_log2 x + -52)%Z by lia.
      rewrite pow2_plus.
      apply Qmult_le_compat_r;
        [now apply floor_log2_below | apply Qlt_le_weak, pow2_pos]. }
  pose proof (pow2_pos e) as Hpe.
  destruct (py_round_within_half (x / pow2 e)) as [Hm1 Hm2].
  set (m := py_round (x / pow2 e)) in *.
  assert (E53 : pow2 (-52) == 2 * pow2 (-53)).
  { change (-52)%Z with (1 + -53)%Z. rewrite pow2_plus. reflexivity. }
  assert (Ex : x == x / pow2 e * pow2 e).
  { field. intro E0. rewrite E0 in Hpe. now apply Qlt_irrefl in Hpe. }
  assert (Hy : - (x * pow2 (-53)) <= inject_Z m * pow2 e - x /\
               inject_Z m * pow2 e - x <= x * pow2 (-53)).
  { rewrite E53 in He. clear E53 Hlo Hhi.
    set (t := x / pow2 e) in *. set (v := pow2 e) in *.
    set (u := pow2 (-53)) in *. clearbody t v u m.
    assert (E1 : inject_Z m * v - x == (inject_Z m - t) * v)
      by (rewrite Ex at 1; ring).
    rewrite !E1. split; nra. }
  destruct Hy as [Hy1 Hy2].
  destruct (Qle_bool _ _) eqn:Eo.
  - exfalso. apply Qle_bool_iff in Eo. rewrite Qred_correct in Eo.
    assert (H1 : pow2 1024 == 2 * pow2 1023).
    { change 1024%Z with (1 + 1023)%Z. rewrite pow2_plus. reflexivity. }
    assert (H2 : pow2 (-53) <= 1).
    { change 1 with (pow2 0). apply pow2_le. lia. }
    rewrite H1 in Eo. clear - Eo Hy2 H2 Hhi Hx.
    set (u := pow2 (-53)) in *. set (v := pow2 1023) in *.
    set (y := inject_Z m * pow2 e) in *. clearbody u v y. nra.
  - eexists. split; [reflexivity |]. rewrite Qred_correct. split; assumption.
Qed.

(** The rounding at values whose doubles are known: 1/3 is
    [0x3FD5555555555555], 0.1 is [0x3FB999999999999A], 0.7 is
    [0x3FE6666666666666]; a tie goes to the even mantissa; the largest
    double is [2^1024 - 2^971], and half a step beyond it is infinity; the
    smallest double is [2^-1074], and half of it is zero. *)
Example round64_of_known_values :
  round64 (1 # 3) = Finite (6004799503160661 # 2 ^ 54) /\
  round64 (1 # 10) = Finite (3602879701896397 # 2 ^ 55) /\
  round64 (7 # 10) = Finite (3152519739159347 # 2 ^ 52) /\
  round64 (1 + pow2 (-53)) = Finite 1 /\
  round64 (1 + 3 * pow2 (-53)) = Finite (2251799813685249 # 2 ^ 51) /\
  round64 (10000000000000000 + 1) = Finite 10000000000000000 /\
  round64 (pow2 1024 - pow2 971) = Finite (Qred (pow2 1024 - pow2 971)) /\
  round64 (pow2 1024 - pow2 970) = PosInf /\
  round64 (pow2 600 * pow2 600) = PosInf /\
  round64 (pow2 (-1074)) = Finite (Qred (pow2 (-1074))) /\
  round64 (pow2 (-1075)) = Finite 0 /\
  round64 (- (1 # 3)) = Finite (- (6004799503160661 # 2 ^ 54)).
Proof. repeat split; vm_compute; reflexivity. Qed.

(** ** NumPy reductions *)

Lemma np_leq_refl x : x <> NaN -> np_leq x x.
Proof. destruct x; simpl; try tauto. intros _. apply Qle_refl. Qed.

Lemma np_leq_trans x y z : np_leq x y -> np_leq y z -> np_leq x z.
Proof. destruct x, y, z; simpl; try tauto. apply Qle_trans. Qed.

Lemma np_leq_not_nan_l x y : np_leq x y -> x <> NaN.
Proof. destruct x; simpl; [discriminate .. | tauto]. Qed.

Lemma same_value_refl x : same_value x x.
Proof. destruct x; simpl; auto. apply Qeq_refl. Qed.

Lemma same_value_sym x y : same_value x y -> same_value y x.
Proof. destruct x, y; simpl; auto. apply Qeq_sym. Qed.

Lemma same_value_trans x y z : same_value x y -> same_value y z -> same_value x z.
Proof. destruct x, y, z; simpl; try tauto. apply Qeq_trans. Qed.

Lemma np_leq_same_value x x' y y' :
  same_value x x' -> same_value y y' -> np_leq x y -> np_leq x' y'.
Proof.
  destruct x, x', y, y'; simpl; try tauto.
  intros E1 E2 H. now rewrite <- E1, <- E2.
Qed.

Lemma np_maximum_cases a b :
  a <> NaN -> b <> NaN ->
  (np_maximum a b = a /\ np_leq b a) \/ (np_maximum a b = b /\ np_leq a b).
Proof.
  destruct a as [a | | |], b as [b | | |]; intros Ha Hb; try congruence; simpl;
    try (left; split; [reflexivity | exact I]);
    try (right; split; [reflexivity | exact I]).
  destruct (Qle_bool a b) eqn:E.
  - right. split; [reflexivity | now apply Qle_bool_iff].
  - left. split; [reflexivity |].
    apply Qlt_le_weak, Qnot_le_lt. intro H.
    apply Qle_bool_iff in H. congruence.
Qed.

Lemma fold_np_maximum_from_nan l : fold_left np_maximum l NaN = NaN.
Proof. induction l; simpl; auto. Qed.

Lemma np_maximum_nan_r x : np_maximum x NaN = NaN.
Proof. destruct x; reflexivity. Qed.

Lemma fold_np_maximum_has_nan l :
  forall x, In NaN l -> fold_left np_maximum l x = NaN.
Proof.
  induction l as [|a l IH]; intros x H; simpl; [destruct H |].
  destruct H as [-> | H].
  - rewrite np_maximum_nan_r. apply fold_np_maximum_from_nan.
  - now apply IH.
Qed.

Lemma np_max_has_nan l : In NaN l -> np_max l = Return NaN.
Proof.
  destruct l as [|x t]; [intros [] |]. intros [-> | H]; simpl.
  - now rewrite fold_np_maximum_from_nan.
  - now rewrite fold_np_maximum_has_nan.
Qed.

Lemma fold_np_maximum_spec t :
  forall x, x <> NaN -> ~ In NaN t ->
    fold_left np_maximum t x <> NaN /\
    In (fold_left np_maximum t x) (x :: t) /\
    np_leq x (fold_left np_maximum t x) /\
    Forall (fun v => np_leq v (fold_left np_maximum t x)) t.
Proof.
  induction t as [|a t IH]; intros x Hx Ht; simpl.
  - split; [exact Hx |]. split; [now left |].
    split; [now apply np_leq_refl | constructor].
  - assert (Ha : a <> NaN) by (intro E; apply Ht; now left).
    assert (Ht' : ~ In NaN t) by (intro E; apply Ht; now right).
    destruct (np_maximum_cases x a Hx Ha) as [[E Hle] | [E Hle]]; rewrite E.
    + destruct (IH x Hx Ht') as [H1 [H2 [H3 H4]]].
      split; [exact H1 |]. split; [| split; [exact H3 |]].
      * destruct H2 as [H2 | H2]; [now left | now right; right].
      * constructor; [eapply np_leq_trans; eauto | exact H4].
    + destruct (IH a Ha Ht') as [H1 [H2 [H3 H4]]].
      split; [exact H1 |]. split; [| split].
      * now right.
      * eapply np_leq_trans; eauto.
      * constructor; assumption.
Qed.

(** Without a nan, [np.max] returns an entry that no entry exceeds. *)
Lemma np_max_spec l m :
  np_max l = Return m -> ~ In NaN l ->
  m <> NaN /\ In m l /\ Forall (fun v => np_leq v m) l.
Proof.
  destruct l as [|x t]; simpl; [discriminate |].
  intros H Hn. injection H as <-.
  assert (Hx : x <> NaN) by (intro E; apply Hn; now left).
  assert (Ht : ~ In NaN t) by (intro E; apply Hn; now right).
  destruct (fold_np_maximum_spec t x Hx Ht) as [H1 [H2 [H3 H4]]].
  split; [exact H1 |]. split; [exact H2 |]. constructor; assumption.
Qed.

Lemma nan_in_or_not l : In NaN l \/ ~ In NaN l.
Proof.
  induction l as [|x l [IH | IH]].
  - right. intros [].
  - left. now right.
  - destruct x; [right | right | right | left; now left];
      intros [E | E]; try discriminate; contradiction.
Qed.

Lemma np_max_cases l m :
  np_max l = Return m ->
  (m = NaN /\ In NaN l) \/
  (m <> NaN /\ ~ In NaN l /\ In m l /\ Forall (fun v => np_leq v m) l).
Proof.
  intros H. destruct (nan_in_or_not l) as [Hn | Hn].
  - left. rewrite (np_max_has_nan _ Hn) in H. injection H as <-. auto.
  - right. destruct (np_max_spec _ _ H Hn) as [H1 [H2 H3]]. auto.
Qed.

Lemma np_max_total l : l <> [] -> exists m, np_max l = Return m.
Proof. destruct l; [congruence | intros _; simpl; eauto]. Qed.

Lemma Qgt_bool_iff q t : negb (Qle_bool q t) = true <-> t < q.
Proof.
  rewrite negb_true_iff. split.
  - intros H. apply Qnot_le_lt. intro L. apply Qle_bool_iff in L. congruence.
  - intros H. destruct (Qle_bool q t) eqn:E; [| reflexivity].
    apply Qle_bool_iff in E. exfalso. apply (Qlt_irrefl t).
    eapply Qlt_le_trans; eauto.
Qed.

Lemma np_gt_mono x y threshold :
  np_leq x y -> np_gt x threshold = true -> np_gt y threshold = true.
Proof.
  destruct x, y; simpl; try tauto; try discriminate.
  intros Hle H. apply Qgt_bool_iff in H. apply Qgt_bool_iff.
  eapply Qlt_le_trans; eauto.
Qed.

Lemma np_gt_same_value x y threshold :
  same_value x y -> np_gt x threshold = np_gt y threshold.
Proof.
  destruct x, y; simpl; try tauto. intros E.
  now rewrite (Qleb_comp _ _ E threshold threshold (Qeq_refl _)).
Qed.

Lemma np_gt_maximum a b threshold :
  a <> NaN -> b <> NaN ->
  np_gt (np_maximum a b) threshold = np_gt a threshold || np_gt b threshold.
Proof.
  intros Ha Hb.
  destruct (np_maximum_cases a b Ha Hb) as [[E Hle] | [E Hle]]; rewrite E.
  - destruct (np_gt a threshold) eqn:Ea; [reflexivity |].
    destruct (np_gt b threshold) eqn:Eb; [| reflexivity].
    rewrite (np_gt_mono _ _ _ Hle Eb) in Ea. discriminate.
  - destruct (np_gt b threshold) eqn:Eb; [now rewrite orb_true_r |].
    destruct (np_gt a threshold) eqn:Ea; [| reflexivity].
    rewrite (np_gt_mono _ _ _ Hle Ea) in Eb. discriminate.
Qed.

Lemma np_maximum_not_nan a b : a <> NaN -> b <> NaN -> np_maximum a b <> NaN.
Proof.
  intros Ha Hb.
  destruct (np_maximum_cases a b Ha Hb) as [[E _] | [E _]]; now rewrite E.
Qed.

(** Without a nan, the largest value exceeds a threshold exactly when some
    value does. *)
Lemma np_gt_np_max l top threshold :
  ~ In NaN l -> np_max l = Return top ->
  np_gt top threshold = existsb (fun v => np_gt v threshold) l.
Proof.
  destruct l as [|x t]; simpl; [discriminate |].
  intros Hn H. injection H as <-.
  assert (Hx : x <> NaN) by (intro E; apply Hn; now left).
  assert (Ht : ~ In NaN t) by (intro E; apply Hn; now right).
  clear Hn. revert x Hx. induction t as [|a t IH]; intros x Hx; simpl.
  - now rewrite orb_false_r.
  - assert (Ha : a <> NaN) by (intro E; apply Ht; now left).
    rewrite IH.
    + rewrite np_gt_maximum by assumption. now rewrite orb_assoc.
    + intro E; apply Ht; now right.
    + now apply np_maximum_not_nan.
Qed.

(** ** Division *)

Lemma np_div_finite a b :
  ~ b == 0 -> np_div (Finite a) (Finite b) = round64 (a / b).
Proof.
  intros H. simpl. destruct (Qeq_bool b 0) eqn:E; [| reflexivity].
  apply Qeq_bool_iff in E. contradiction.
Qed.

Lemma np_div_zero_by_zero a b :
  a == 0 -> b == 0 -> np_div (Finite a) (Finite b) = NaN.
Proof.
  intros Ha Hb. simpl.
  apply Qeq_bool_iff in Ha. apply Qeq_bool_iff in Hb. now rewrite Ha, Hb.
Qed.

Lemma Qeq_bool_comp x y : x == y -> Qeq_bool x 0 = Qeq_bool y 0.
Proof.
  intros H. destruct (Qeq_bool x 0) eqn:Ex, (Qeq_bool y 0) eqn:Ey; try reflexivity.
  - apply Qeq_bool_iff in Ex. rewrite H in Ex. apply Qeq_bool_iff in Ex. congruence.
  - apply Qeq_bool_iff in Ey. rewrite <- H in Ey. apply Qeq_bool_iff in Ey. congruence.
Qed.

(** Division does not tell apart two representations of its operands. *)
Lemma np_div_same_value x x' y y' :
  same_value x x' -> same_value y y' -> np_div x y = np_div x' y'.
Proof.
  destruct x as [a | | |], x' as [a' | | |]; simpl same_value; try tauto;
    destruct y as [b | | |], y' as [b' | | |]; simpl same_value; try tauto;
    intros Ea Eb; try reflexivity; simpl.
  - rewrite (Qeq_bool_comp _ _ Ea), (Qeq_bool_comp _ _ Eb).
    rewrite (Qleb_comp 0 0 (Qeq_refl 0) _ _ Ea).
    rewrite (round64_comp (a / b) (a' / b')) by (now rewrite Ea, Eb).
    reflexivity.
  - now rewrite (Qleb_comp 0 0 (Qeq_refl 0) _ _ Eb).
  - now rewrite (Qleb_comp 0 0 (Qeq_refl 0) _ _ Eb).
Qed.

Lemma np_div_not_nan x m :
  x <> NaN -> ~ m == 0 -> np_div x (Finite m) <> NaN.
Proof.
  intros Hx Hm. destruct x as [a | | |]; [| | | congruence].
  - rewrite np_div_finite by exact Hm. apply round64_not_nan.
  - simpl. destruct (Qle_bool 0 m); discriminate.
  - simpl. destruct (Qle_bool 0 m); discriminate.
Qed.

(** ** The correlation array *)

Lemma match_car_sound_eq reference_ts test_ts threshold :
  match_car_sound reference_ts test_ts threshold =
  (m <- call (np_max (correlation_of reference_ts test_ts)) ;;
   top <- call (np_max (normalized (correlation_of reference_ts test_ts) m)) ;;
   Return (np_gt top threshold))%py.
Proof. reflexivity. Qed.

Lemma correlate_valid_length in1 in2 :
  length (all_values (correlate_valid in1 in2)) =
  (if (shape1 in2 <=? shape1 in1)%nat
   then shape1 in1 - shape1 in2 + 1 else shape1 in2 - shape1 in1 + 1)%nat.
Proof.
  unfold correlate_valid, all_values.
  destruct (shape1 in2 <=? shape1 in1)%nat; simpl;
    rewrite app_nil_r; repeat rewrite ?length_rev, ?length_map, ?length_seq;
    reflexivity.
Qed.

Lemma correlation_of_nonempty reference_ts test_ts :
  correlation_of reference_ts test_ts <> [].
Proof.
  intros E. apply (f_equal (@length npfloat)) in E.
  unfold correlation_of in E. rewrite correlate_valid_length in E.
  simpl in E. destruct (_ <=? _)%nat; lia.
Qed.

(** [match_car_sound] never raises: the correlation array is not empty. *)
Lemma match_car_sound_total reference_ts test_ts threshold :
  exists m top,
    np_max (correlation_of reference_ts test_ts) = Return m /\
    np_max (normalized (correlation_of reference_ts test_ts) m) = Return top /\
    match_car_sound reference_ts test_ts threshold = Return (np_gt top threshold).
Proof.
  destruct (np_max_total _ (correlation_of_nonempty reference_ts test_ts)) as [m Hm].
  destruct (np_max_total (normalized (correlation_of reference_ts test_ts) m))
    as [top Htop].
  { unfold normalized. intros E. apply map_eq_nil in E.
    now apply correlation_of_nonempty in E. }
  exists m, top. repeat split; try assumption.
  rewrite match_car_sound_eq, Hm. simpl. rewrite Htop. reflexivity.
Qed.

Lemma match_returns_bool reference_ts test_ts threshold :
  exists b, match_car_sound reference_ts test_ts threshold = Return b.
Proof.
  destruct (match_car_sound_total reference_ts test_ts threshold)
    as [m [top [_ [_ H]]]]. eauto.
Qed.

Lemma match_same_correlation r1 t1 r2 t2 threshold :
  correlation_of r1 t1 = correlation_of r2 t2 ->
  match_car_sound r1 t1 threshold = match_car_sound r2 t2 threshold.
Proof. intros E. now rewrite !match_car_sound_eq, E. Qed.

(** ** A largest value of one *)

(** When no value exceeds [b] and some value is [b], [np.max] is [b]. *)
Lemma np_max_bounded_attained l b :
  Forall (fun v => np_leq v (Finite b)) l ->
  Exists (fun v => same_value v (Finite b)) l ->
  exists q, np_max l = Return (Finite q) /\ q == b.
Proof.
  intros Hall Hex.
  assert (Hn : ~ In NaN l).
  { intros H. rewrite Forall_forall in Hall. exact (Hall _ H). }
  destruct (np_max_total l) as [m Hm].
  { intros ->. inversion Hex. }
  destruct (np_max_spec _ _ Hm Hn) as [_ [Hin Hge]].
  rewrite Forall_forall in Hall, Hge. apply Exists_exists in Hex.
  destruct Hex as [x [Hx Ex]].
  pose proof (Hall _ Hin) as Hle. pose proof (Hge _ Hx) as Hxm.
  destruct m as [q | | |]; simpl in Hle; try contradiction.
  - exists q. split; [exact Hm |].
    destruct x as [a | | |]; simpl in Ex; try contradiction.
    simpl in Hxm. apply Qle_antisym; [exact Hle | now rewrite <- Ex].
  - destruct x; simpl in Ex, Hxm; contradiction.
Qed.

(** Dividing by a positive finite maximum, or dividing equal finite non-zero
    values by themselves, leaves a largest value of one. *)
Lemma normalized_max_one l m :
  np_max l = Return m ->
  (exists q, m = Finite q /\ 0 < q) \/
  (exists q, Forall (fun v => same_value v (Finite q)) l /\ ~ q == 0) ->
  exists q1, np_max (normalized l m) = Return (Finite q1) /\ q1 == 1.
Proof.
  intros Hm Hcase. unfold normalized. apply np_max_bounded_attained.
  - destruct Hcase as [[q [-> Hpos]] | [q [Hall Hnz]]].
    + destruct (np_max_cases _ _ Hm) as [[E _] | [_ [_ [_ Hle]]]];
        [discriminate |].
      assert (Hnz : ~ q == 0).
      { intro E. rewrite E in Hpos. now apply Qlt_irrefl in Hpos. }
      apply Forall_map. apply Forall_forall. intros v Hv.
      rewrite Forall_forall in Hle. specialize (Hle v Hv).
      destruct v as [a | | |]; simpl in Hle; try contradiction.
      * rewrite np_div_finite by exact Hnz. apply round64_le_one.
        apply Qle_shift_div_r; [exact Hpos |]. now rewrite Qmult_1_l.
      * simpl.
        assert (E : Qle_bool 0 q = true)
          by (apply Qle_bool_iff; now apply Qlt_le_weak).
        now rewrite E.
    + assert (Hn : ~ In NaN l).
      { intros H. rewrite Forall_forall in Hall. exact (Hall _ H). }
      destruct (np_max_spec _ _ Hm Hn) as [_ [Hin _]].
      pose proof Hall as Hall'. rewrite Forall_forall in Hall'.
      pose proof (Hall' _ Hin) as Em.
      apply Forall_map. apply Forall_forall. intros v Hv.
      rewrite (np_div_same_value v (Finite q) m (Finite q) (Hall' _ Hv) Em).
      rewrite np_div_finite by exact Hnz.
      rewrite (round64_comp (q / q) 1) by (field; exact Hnz).
      rewrite round64_one. simpl. discriminate.
  - assert (Hin : exists x, In x l /\ same_value x m /\
                            exists q, m = Finite q /\ ~ q == 0).
    { destruct Hcase as [[q [-> Hpos]] | [q [Hall Hnz]]].
      - destruct (np_max_cases _ _ Hm) as [[E _] | [_ [_ [Hin _]]]];
          [discriminate |].
        exists (Finite q). split; [exact Hin |].
        split; [apply same_value_refl |]. exists q. split; [reflexivity |].
        intro E. rewrite E in Hpos. now apply Qlt_irrefl in Hpos.
      - assert (Hn : ~ In NaN l).
        { intros H. rewrite Forall_forall in Hall. exact (Hall _ H). }
        destruct (np_max_spec _ _ Hm Hn) as [_ [Hin _]].
        exists m. split; [exact Hin |]. split; [apply same_value_refl |].
        rewrite Forall_forall in Hall. pose proof (Hall _ Hin) as Em.
        destruct m as [q' | | |]; simpl in Em; try contradiction.
        exists q'. split; [reflexivity |]. now rewrite Em. }
    destruct Hin as [x [Hx [Ex [q [-> Hnz]]]]].
    apply Exists_exists. exists (np_div x (Finite q)). split.
    + apply in_map_iff. eauto.
    + rewrite (np_div_same_value x (Finite q) (Finite q) (Finite q) Ex
                 (same_value_refl _)).
      rewrite np_div_finite by exact Hnz.
      rewrite (round64_comp (q / q) 1) by (field; exact Hnz).
      rewrite round64_one. simpl. reflexivity.
Qed.




(** ** Signals without frames, and silent signals *)

Lemma fold_np_maximum_zeros k :
  fold_left np_maximum (repeat (Finite 0) k) (Finite 0) = Finite 0.
Proof. induction k; simpl; auto. Qed.

Lemma fold_np_maximum_nan k : fold_left np_maximum (repeat NaN k) NaN = NaN.
Proof. induction k; simpl; auto. Qed.

Lemma match_all_zero reference_ts test_ts threshold k :
  correlation_of reference_ts test_ts = repeat (Finite 0) (S k) ->
  match_car_sound reference_ts test_ts threshold = Return false.
Proof.
  intros E. rewrite match_car_sound_eq, E. simpl.
  rewrite fold_np_maximum_zeros. simpl.
  unfold normalized. rewrite map_repeat.
  change (np_div (Finite 0) (Finite 0)) with NaN.
  now rewrite fold_np_maximum_nan.
Qed.

Lemma all_zero_is_repeat (l : list npfloat) :
  Forall (eq (Finite 0)) l -> l = repeat (Finite 0) (length l).
Proof.
  induction 1 as [|x l Hx _ IH]; simpl; [reflexivity |].
  now rewrite <- Hx, <- IH.
Qed.

Lemma match_all_correlation_zero reference_ts test_ts threshold :
  Forall (eq (Finite 0)) (correlation_of reference_ts test_ts) ->
  match_car_sound reference_ts test_ts threshold = Return false.
Proof.
  intros H. apply all_zero_is_repeat in H.
  destruct (length (correlation_of reference_ts test_ts)) as [|k] eqn:El.
  - apply length_zero_iff_nil in El. now apply correlation_of_nonempty in El.
  - eapply match_all_zero; eauto.
Qed.

(** Products that are all zero accumulate to zero. *)
Lemma accumulate_zero_products pairs :
  Forall (fun p => fst p * snd p == 0) pairs -> accumulate pairs = Finite 0.
Proof.
  unfold accumulate. induction 1 as [|p l Hp _ IH]; simpl; [reflexivity |].
  assert (E : np_mul (fst p) (snd p) = Finite 0).
  { unfold np_mul, round64. apply Qeq_alt in Hp. now rewrite Hp. }
  rewrite E. exact IH.
Qed.

Lemma correlation_of_zero_frames reference_ts test_ts :
  (shape0 (data reference_ts) = 0 \/ shape0 (data test_ts) = 0)%nat ->
  Forall (eq (Finite 0)) (correlation_of reference_ts test_ts).
Proof.
  intros H. unfold correlation_of.
  assert (E : Nat.min (shape0 (data reference_ts)) (shape0 (data test_ts)) = 0%nat)
    by lia.
  rewrite E. unfold take, correlate_valid, all_values. simpl.
  destruct (_ <=? _)%nat; simpl; rewrite app_nil_r;
    apply Forall_forall; intros v Hv;
    [| apply in_rev in Hv]; apply in_map_iff in Hv;
    destruct Hv as [k [<- _]]; reflexivity.
Qed.

Lemma In_skipn {A} (x : A) n : forall l, In x (skipn n l) -> In x l.
Proof.
  induction n as [|n IH]; intros [|y l]; simpl; try tauto.
  intros H. right. now apply IH.
Qed.

Lemma In_firstn {A} (x : A) n : forall l, In x (firstn n l) -> In x l.
Proof.
  induction n as [|n IH]; intros [|y l]; simpl; try tauto.
  intros [H | H]; auto.
Qed.

(** Where the two factors of a product come from. *)
Lemma products_at_In k big small p :
  In p (products_at k big small) ->
  (exists r, In r big /\ In (fst p) r) /\ (exists r, In r small /\ In (snd p) r).
Proof.
  unfold products_at. intros H. apply in_concat in H.
  destruct H as [l [Hl Hp]]. apply in_map_iff in Hl.
  destruct Hl as [[b s] [<- Hbs]]. simpl in Hp. destruct p as [x y].
  split.
  - exists b. split; [eapply in_combine_l; eauto |].
    apply in_combine_l in Hp. eapply In_skipn; eauto.
  - exists s. split; [eapply in_combine_r; eauto |].
    eapply in_combine_r; eauto.
Qed.

Lemma products_of_silent_big k big small :
  Forall (Forall (fun v => v == 0)) big ->
  Forall (fun p => fst p * snd p == 0) (products_at k big small).
Proof.
  intros H. apply Forall_forall. intros p Hp.
  destruct (products_at_In _ _ _ _ Hp) as [[r [Hr Hx]] _].
  rewrite Forall_forall in H. specialize (H r Hr).
  rewrite Forall_forall in H. rewrite (H _ Hx). apply Qmult_0_l.
Qed.

Lemma products_of_silent_small k big small :
  Forall (Forall (fun v => v == 0)) small ->
  Forall (fun p => fst p * snd p == 0) (products_at k big small).
Proof.
  intros H. apply Forall_forall. intros p Hp.
  destruct (products_at_In _ _ _ _ Hp) as [_ [r [Hr Hy]]].
  rewrite Forall_forall in H. specialize (H r Hr).
  rewrite Forall_forall in H. rewrite (H _ Hy). apply Qmult_0_r.
Qed.

Lemma Forall_firstn {A} (P : A -> Prop) n :
  forall l, Forall P l -> Forall P (firstn n l).
Proof.
  induction n as [|n IH]; intros l H; simpl; [constructor |].
  destruct H; constructor; auto.
Qed.

Lemma correlation_of_silent reference_ts test_ts :
  silent (data reference_ts) \/ silent (data test_ts) ->
  Forall (eq (Finite 0)) (correlation_of reference_ts test_ts).
Proof.
  intros H. unfold correlation_of, correlate_valid, all_values. simpl.
  set (n := Nat.min _ _).
  assert (Hn : Forall (Forall (fun v => v == 0))
                      (firstn n (rows (data reference_ts))) \/
               Forall (Forall (fun v => v == 0))
                      (firstn n (rows (data test_ts)))).
  { destruct H as [H | H]; [left | right]; now apply Forall_firstn. }
  destruct (_ <=? _)%nat; simpl; rewrite app_nil_r;
    apply Forall_forall; intros v Hv;
    [| apply in_rev in Hv]; apply in_map_iff in Hv;
    destruct Hv as [k [<- _]]; symmetry.
  - apply accumulate_zero_products.
    destruct Hn as [Hn | Hn];
      [now apply products_of_silent_small | now apply products_of_silent_big].
  - apply accumulate_zero_products. apply Forall_rev.
    destruct Hn as [Hn | Hn];
      [now apply products_of_silent_big | now apply products_of_silent_small].
Qed.

Lemma correlation_of_silent_reference reference_ts test_ts :
  silent (data reference_ts) ->
  Forall (eq (Finite 0)) (correlation_of reference_ts test_ts).
Proof. intros H. apply correlation_of_silent. now left. Qed.

(** ** The correlation in exact arithmetic *)


















(** ** When binary64 computes the correlation exactly *)

Lemma Qsum_app l1 l2 : Qsum (l1 ++ l2) == Qsum l1 + Qsum l2.
Proof.
  induction l1 as [|x l1 IH]; simpl; [ring |]. rewrite IH. ring.
Qed.

Lemma Qsum_rev l : Qsum (rev l) == Qsum l.
Proof.
  induction l as [|x l IH]; simpl; [reflexivity |].
  rewrite Qsum_app, IH. simpl. ring.
Qed.

(** The products of a lag add up to the nested sum of the exact
    correlation. *)
Lemma Qsum_products_at k big small :
  Qsum (map (fun p => fst p * snd p) (products_at k big small))
  == exact_lag_sum big small k.
Proof.
  unfold products_at, exact_lag_sum.
  induction (combine big small) as [|p l IH]; simpl; [reflexivity |].
  rewrite map_app, Qsum_app, IH. reflexivity.
Qed.

Lemma inject_Z_pow2_nonzero n : (0 <= n)%Z -> ~ inject_Z (2 ^ n) == 0.
Proof.
  intros H E. pose proof (inject_Z_pow2_pos n H) as Hp.
  rewrite E in Hp. now apply Qlt_irrefl in Hp.
Qed.

Lemma scaled_integer_spec p B v :
  scaled_integer p B v = true ->
  exists k, v == inject_Z k / inject_Z (2 ^ Z.of_nat p) /\ (Z.abs k <= B)%Z.
Proof.
  unfold scaled_integer. intros H. apply andb_prop in H. destruct H as [Hm Hb].
  apply Z.eqb_eq in Hm. apply Z.leb_le in Hb.
  set (n := (Qnum v * 2 ^ Z.of_nat p)%Z) in *.
  exists (n / Z.pos (Qden v))%Z. split; [| exact Hb].
  assert (En : n = (Z.pos (Qden v) * (n / Z.pos (Qden v)))%Z).
  { rewrite (Z.div_mod n (Z.pos (Qden v))) at 1 by lia. rewrite Hm. lia. }
  assert (Ev : v * inject_Z (2 ^ Z.of_nat p) == inject_Z (n / Z.pos (Qden v))).
  { unfold Qeq, Qmult, inject_Z. simpl. fold n.
    rewrite Pos.mul_1_r, Z.mul_1_r. rewrite En at 1. lia. }
  rewrite <- Ev. field. apply inject_Z_pow2_nonzero. lia.
Qed.

Lemma scaled_product p B x y :
  scaled_integer p B x = true -> scaled_integer p B y = true ->
  exists k, x * y == inject_Z k / inject_Z (2 ^ (Z.of_nat p + Z.of_nat p)) /\
            (Z.abs k <= B * B)%Z.
Proof.
  intros Hx Hy.
  destruct (scaled_integer_spec _ _ _ Hx) as [k1 [E1 B1]].
  destruct (scaled_integer_spec _ _ _ Hy) as [k2 [E2 B2]].
  exists (k1 * k2)%Z. split.
  - rewrite E1, E2, Z.pow_add_r, !inject_Z_mult by lia.
    field. apply inject_Z_pow2_nonzero. lia.
  - rewrite Z.abs_mul. nia.
Qed.

(** Accumulating products that are multiples of [2^-P] of bounded
    magnitude stays exact as long as the running sum fits in 53 bits. *)
Lemma accumulate_from_exact P K pairs :
  (0 <= P <= 1074)%Z -> (0 <= K)%Z ->
  Forall (fun p => exists k, fst p * snd p == inject_Z k / inject_Z (2 ^ P) /\
                             (Z.abs k <= K)%Z) pairs ->
  forall a ka,
    a == inject_Z ka / inject_Z (2 ^ P) ->
    (Z.abs ka + Z.of_nat (length pairs) * K < 2 ^ 53)%Z ->
    exists q,
      fold_left (fun acc p => np_add acc (np_mul (fst p) (snd p))) pairs (Finite a)
      = Finite q /\
      q == a + Qsum (map (fun p => fst p * snd p) pairs).
Proof.
  intros HP HK Hall. induction Hall as [|p l [k [Ek Bk]] _ IH];
    intros a ka Ea Hb; simpl.
  - exists a. split; [reflexivity | ring].
  - simpl length in Hb. rewrite Nat2Z.inj_succ in Hb.
    destruct (round64_exact (fst p * snd p) k P Ek) as [qp [Hqp Eqp]];
      [lia | exact HP |].
    change (np_mul (fst p) (snd p)) with (round64 (fst p * snd p)).
    rewrite Hqp. simpl np_add.
    assert (Es : a + qp == inject_Z (ka + k) / inject_Z (2 ^ P)).
    { rewrite Eqp, Ea, Ek, inject_Z_plus. field.
      apply inject_Z_pow2_nonzero. lia. }
    destruct (round64_exact (a + qp) (ka + k) P Es) as [q' [Hq' Eq']];
      [lia | exact HP |].
    rewrite Hq'.
    destruct (IH q' (ka + k)%Z) as [q [Hq Eq]].
    + now rewrite Eq'.
    + lia.
    + exists q. split; [exact Hq |]. rewrite Eq, Eq', Eqp. ring.
Qed.

Lemma accumulate_exact P K pairs :
  (0 <= P <= 1074)%Z -> (0 <= K)%Z ->
  Forall (fun p => exists k, fst p * snd p == inject_Z k / inject_Z (2 ^ P) /\
                             (Z.abs k <= K)%Z) pairs ->
  (Z.of_nat (length pairs) * K < 2 ^ 53)%Z ->
  exists q, accumulate pairs = Finite q /\
            q == Qsum (map (fun p => fst p * snd p) pairs).
Proof.
  intros HP HK Hall Hb.
  destruct (accumulate_from_exact P K pairs HP HK Hall 0 0%Z) as [q [Hq Eq]].
  - unfold Qdiv. now rewrite Qmult_0_l.
  - simpl. lia.
  - exists q. split; [exact Hq |]. rewrite Eq. ring.
Qed.

(** A lag has at most as many products as there are common rows times
    the columns of the narrower array. *)
Lemma products_at_length k c1 c2 big :
  forall small,
    Forall (fun r => length r = c1) big ->
    Forall (fun r => length r = c2) small ->
    (length (products_at k big small)
     <= Nat.min (length big) (length small) * Nat.min c1 c2)%nat.
Proof.
  unfold products_at.
  induction big as [|b big IH]; intros [|s small] Hb Hs; simpl; try lia.
  inversion Hb as [|? ? Lb Hb']; subst.
  inversion Hs as [|? ? Ls Hs']; subst.
  rewrite length_app, length_combine, length_skipn.
  specialize (IH small Hb' Hs'). lia.
Qed.

Lemma rectangular_wf a : rectangular a = true -> wf_ndarray a.
Proof.
  unfold rectangular, wf_ndarray. intros H. apply Forall_forall.
  intros r Hr. rewrite forallb_forall in H. now apply Nat.eqb_eq, H.
Qed.

(** The parts of [exact_in_binary64]. *)
Lemma exact_in_binary64_parts p B a b :
  exact_in_binary64 p B a b = true ->
  wf_ndarray a /\ wf_ndarray b /\
  (forall r v, In r (rows a) -> In v r -> scaled_integer p B v = true) /\
  (forall r v, In r (rows b) -> In v r -> scaled_integer p B v = true) /\
  (p <= 537)%nat /\
  (Z.of_nat (Nat.min (shape0 a) (shape0 b))
   * Z.of_nat (Nat.min (shape1 a) (shape1 b)) * (B * B) < 2 ^ 53)%Z.
Proof.
  unfold exact_in_binary64. intros H.
  repeat (apply andb_prop in H; destruct H as [H ?]).
  repeat split.
  - now apply rectangular_wf.
  - now apply rectangular_wf.
  - intros r v Hr Hv.
    match goal with
    | X : forallb _ (rows a) = true |- _ =>
        rewrite forallb_forall in X; specialize (X r Hr);
        rewrite forallb_forall in X; exact (X v Hv)
    end.
  - intros r v Hr Hv.
    match goal with
    | X : forallb _ (rows b) = true |- _ =>
        rewrite forallb_forall in X; specialize (X r Hr);
        rewrite forallb_forall in X; exact (X v Hv)
    end.
  - now apply Nat.leb_le.
  - now apply Z.ltb_lt.
Qed.

Lemma exact_in_binary64_sym p B a b :
  exact_in_binary64 p B a b = true -> exact_in_binary64 p B b a = true.
Proof.
  unfold exact_in_binary64. intros H.
  repeat (apply andb_prop in H; destruct H as [H ?]).
  rewrite (Nat.min_comm (shape0 b)), (Nat.min_comm (shape1 b)).
  repeat (apply andb_true_intro; split); assumption.
Qed.

(** Under that condition the products of every lag of the truncated
    arrays accumulate exactly, forwards and backwards. *)
Lemma products_accumulate_exact p B a b n k pairs :
  exact_in_binary64 p B a b = true ->
  n = Nat.min (shape0 a) (shape0 b) ->
  (pairs = products_at k (firstn n (rows a)) (firstn n (rows b)) \/
   pairs = rev (products_at k (firstn n (rows a)) (firstn n (rows b)))) ->
  exists q, accumulate pairs = Finite q /\
            q == exact_lag_sum (firstn n (rows a)) (firstn n (rows b)) k.
Proof.
  intros H En Hpairs.
  destruct (exact_in_binary64_parts _ _ _ _ H)
    as [Hwa [Hwb [Hsa [Hsb [Hp Hbound]]]]].
  set (ps := products_at k (firstn n (rows a)) (firstn n (rows b))) in *.
  assert (Hall : Forall (fun pr => exists j,
                    fst pr * snd pr
                    == inject_Z j / inject_Z (2 ^ (Z.of_nat p + Z.of_nat p)) /\
                    (Z.abs j <= B * B)%Z) ps).
  { apply Forall_forall. intros pr Hpr.
    destruct (products_at_In _ _ _ _ Hpr) as [[r1 [Hr1 Hx]] [r2 [Hr2 Hy]]].
    apply scaled_product.
    - apply (Hsa r1); [eapply In_firstn; eauto | exact Hx].
    - apply (Hsb r2); [eapply In_firstn; eauto | exact Hy]. }
  assert (Hlen : (length ps
                  <= Nat.min (shape0 a) (shape0 b)
                     * Nat.min (shape1 a) (shape1 b))%nat).
  { unfold ps.
    eapply Nat.le_trans;
      [apply (products_at_length k (shape1 a) (shape1 b)) |].
    - apply Forall_firstn. exact Hwa.
    - apply Forall_firstn. exact Hwb.
    - rewrite !length_firstn. unfold shape0 in *. subst n.
      apply Nat.mul_le_mono_r. lia. }
  assert (HB : (0 <= B * B)%Z) by nia.
  assert (Hsize : (Z.of_nat (length ps) * (B * B) < 2 ^ 53)%Z).
  { apply Nat2Z.inj_le in Hlen. rewrite Nat2Z.inj_mul in Hlen. nia. }
  assert (Hsum : Qsum (map (fun pr => fst pr * snd pr) ps)
                 == exact_lag_sum (firstn n (rows a)) (firstn n (rows b)) k)
    by apply Qsum_products_at.
  destruct Hpairs as [-> | ->].
  - destruct (accumulate_exact (Z.of_nat p + Z.of_nat p) (B * B) ps)
      as [q [Hq Eq]]; try assumption; [lia |].
    exists q. split; [exact Hq |]. now rewrite Eq.
  - destruct (accumulate_exact (Z.of_nat p + Z.of_nat p) (B * B) (rev ps))
      as [q [Hq Eq]]; try assumption; [lia | now apply Forall_rev
                                       | now rewrite length_rev |].
    exists q. split; [exact Hq |].
    rewrite Eq, map_rev, Qsum_rev. exact Hsum.
Qed.

Lemma Forall2_map_both {A B C} (R : B -> C -> Prop) (f : A -> B) (g : A -> C) l :
  (forall x, R (f x) (g x)) -> Forall2 R (map f l) (map g l).
Proof. intros H. induction l; simpl; constructor; auto. Qed.

Lemma Forall2_rev_both {A B} (R : A -> B -> Prop) l l' :
  Forall2 R l l' -> Forall2 R (rev l) (rev l').
Proof.
  induction 1; simpl; [constructor |].
  apply Forall2_app; [assumption | repeat constructor; assumption].
Qed.

(** The correlation array that the matcher computes in binary64 holds the
    values of the exact correlation. *)
Lemma correlation_exact p B reference_ts test_ts :
  exact_in_binary64 p B (data reference_ts) (data test_ts) = true ->
  Forall2 same_value
    (correlation_of reference_ts test_ts)
    (map Finite (exact_correlation_of reference_ts test_ts)).
Proof.
  intros H. apply exact_in_binary64_sym in H.
  unfold correlation_of, exact_correlation_of, correlate_valid,
    exact_correlate_valid, all_values, flatten. simpl.
  rewrite (Nat.min_comm (shape0 (data reference_ts))).
  set (n := Nat.min _ _).
  destruct (_ <=? _)%nat; simpl; rewrite !app_nil_r.
  - rewrite map_map. apply Forall2_map_both. intros k.
    destruct (products_accumulate_exact p B (data test_ts) (data reference_ts)
                n k _ H eq_refl (or_introl eq_refl)) as [q [Hq Eq]].
    unfold lag_sum. rewrite Hq. exact Eq.
  - rewrite map_rev, map_map. apply Forall2_rev_both, Forall2_map_both.
    intros k. apply exact_in_binary64_sym in H.
    destruct (products_accumulate_exact p B (data reference_ts) (data test_ts)
                n k _ H (Nat.min_comm _ _) (or_intror eq_refl)) as [q [Hq Eq]].
    unfold lag_sum_backwards. rewrite Hq. exact Eq.
Qed.



Lemma correlate_valid_same_channels in1 in2 :
  shape1 in1 = shape1 in2 ->
  correlate_valid in1 in2 =
  {| values := [[lag_sum (rows in1) (rows in2) 0]]; columns := 1 |}.
Proof.
  intros E. unfold correlate_valid. rewrite E, Nat.leb_refl.
  replace (shape1 in2 - shape1 in2 + 1)%nat with 1%nat by lia.
  reflexivity.
Qed.

(** ** The matcher *)

(** C1, as amended.  [match_car_sound] always returns, and what it returns
    is whether the largest value of the normalized correlation (NumPy's
    [max], nan included) is strictly greater than the threshold.  That
    largest value is exactly one whenever the largest correlation value is
    a positive finite number, and whenever all correlation values are one
    finite non-zero number (a single such value in particular). *)
Theorem match_car_sound_normalized_maximum reference_ts test_ts threshold :
  exists m top,
    np_max (correlation_of reference_ts test_ts) = Return m /\
    np_max (normalized (correlation_of reference_ts test_ts) m) = Return top /\
    match_car_sound reference_ts test_ts threshold
      = Return (np_gt top threshold) /\
    ((exists q, m = Finite q /\ 0 < q) \/
     (exists q,
        Forall (fun v => same_value v (Finite q))
               (correlation_of reference_ts test_ts) /\
        ~ q == 0) ->
     exists q1, top = Finite q1 /\ q1 == 1).
Proof.
  destruct (match_car_sound_total reference_ts test_ts threshold)
    as [m [top [Hm [Htop Hres]]]].
  exists m, top. repeat split; try assumption.
  intros Hcase. destruct (normalized_max_one _ _ Hm Hcase) as [q [Hq H1]].
  exists q. split; [congruence | exact H1].
Qed.

(** C1 as stated fails.  A mono reference [[1]] against a stereo test frame
    [[-2, -1]] gives the correlation values -2 and -1, both non-zero; their
    maximum is -1 and the normalized values are 2 and 1, whose maximum is 2,
    not 1.  And a sample of [2^600] against itself gives a product that
    overflows: the one correlation value is infinity, it is its own
    maximum, and infinity divided by infinity is nan. *)
Lemma normalized_maximum_not_one :
  (correlation_of (signal [[1]] 1) (signal [[-2; -1]] 2)
   = [Finite (-2); Finite (-1)] /\
   np_max [Finite (-2); Finite (-1)] = Return (Finite (-1)) /\
   np_max (normalized [Finite (-2); Finite (-1)] (Finite (-1)))
   = Return (Finite 2) /\
   ~ 2 == 1) /\
  (correlation_of (signal [[pow2 600]] 1) (signal [[pow2 600]] 1) = [PosInf] /\
   np_max [PosInf] = Return PosInf /\
   np_max (normalized [PosInf] PosInf) = Return NaN).
Proof.
  split; [split; [| split; [| split]] | split; [| split]];
    try (vm_compute; reflexivity).
  discriminate.
Qed.

(** C2.  When the reference or the test signal has no frames,
    [match_car_sound] returns false and raises nothing: the correlation is
    all zeros, its division by its zero maximum yields nan, and nan is not
    greater than any threshold. *)
Theorem match_car_sound_zero_frames reference_ts test_ts threshold :
  (num_samples reference_ts = 0 \/ num_samples test_ts = 0)%nat ->
  match_car_sound reference_ts test_ts threshold = Return false.
Proof.
  intros H. apply match_all_correlation_zero.
  now apply correlation_of_zero_frames.
Qed.

Lemma match_car_sound_zero_frames_witness :
  match_car_sound (signal [] 1) (signal [[3; 4]; [5; 6]] 2) default_threshold
  = Return false.
Proof.
  apply match_car_sound_zero_frames. left. reflexivity.
Defined.







(** ** Direction inference *)


Lemma Qgtb_true x y : Qgtb x y = true -> y < x.
Proof.
  unfold Qgtb. intros H. apply negb_true_iff in H.
  apply Qnot_le_lt. intro L. apply Qle_bool_iff in L. congruence.
Qed.

Lemma Qgtb_false x y : Qgtb x y = false -> x <= y.
Proof.
  unfold Qgtb. intros H. apply negb_false_iff in H. now apply Qle_bool_iff.
Qed.

Lemma first_max_snoc_new p best x :
  first_max p best -> nth best p 0 < x -> first_max (p ++ [x]) (length p).
Proof.
  intros [Hb [Hmax Hfirst]] Hlt. unfold first_max.
  rewrite length_app, nth_middle. simpl. repeat split.
  - lia.
  - intros j Hj. destruct (Nat.eq_dec j (length p)) as [-> | Hne].
    + rewrite nth_middle. apply Qle_refl.
    + rewrite app_nth1 by lia. apply Qlt_le_weak.
      eapply Qle_lt_trans; [apply Hmax; lia | exact Hlt].
  - intros j Hj. rewrite app_nth1 by lia.
    eapply Qle_lt_trans; [apply Hmax; lia | exact Hlt].
Qed.

Lemma first_max_snoc_keep p best x :
  first_max p best -> x <= nth best p 0 -> first_max (p ++ [x]) best.
Proof.
  intros [Hb [Hmax Hfirst]] Hle. unfold first_max.
  rewrite length_app. simpl. rewrite (app_nth1 p [x] 0 Hb). repeat split.
  - lia.
  - intros j Hj. destruct (Nat.eq_dec j (length p)) as [-> | Hne].
    + now rewrite nth_middle.
    + rewrite app_nth1 by lia. apply Hmax. lia.
  - intros j Hj. rewrite app_nth1 by lia. now apply Hfirst.
Qed.

Lemma argmax_from_first_max t :
  forall p best,
    first_max p best ->
    first_max (p ++ t) (argmax_from best (nth best p 0) (length p) t).
Proof.
  induction t as [|x t IH]; intros p best Hp; simpl.
  - now rewrite app_nil_r.
  - replace (p ++ x :: t) with ((p ++ [x]) ++ t)
      by (rewrite <- app_assoc; reflexivity).
    destruct (Qgtb x (nth best p 0)) eqn:E.
    + apply Qgtb_true in E.
      pose proof (IH _ _ (first_max_snoc_new p best x Hp E)) as G.
      rewrite nth_middle, length_app, Nat.add_1_r in G. exact G.
    + apply Qgtb_false in E.
      pose proof (IH _ _ (first_max_snoc_keep p best x Hp E)) as G.
      rewrite app_nth1, length_app, Nat.add_1_r in G by apply Hp. exact G.
Qed.

Lemma np_argmax_first_max l :
  l <> [] -> exists idx, np_argmax l = Return idx /\ first_max l idx.
Proof.
  destruct l as [|x t]; [congruence | intros _].
  exists (argmax_from 0 x 1 t). split; [reflexivity |].
  apply (argmax_from_first_max t [x] 0%nat).
  unfold first_max. simpl. repeat split.
  - lia.
  - intros [|j] Hj; [apply Qle_refl | lia].
  - intros j Hj. lia.
Qed.

Lemma concat_empty_rows (l : list (list Q)) :
  Forall (fun r => length r = 0%nat) l -> concat l = [].
Proof.
  induction 1 as [|r l Hr _ IH]; simpl; [reflexivity |].
  rewrite IH. destruct r; [reflexivity | discriminate].
Qed.

(** Row-major order: position [idx] of the flattened array is the cell in
    row [idx / shape1] and column [idx mod shape1]. *)
Lemma nth_concat_rows c (l : list (list Q)) :
  Forall (fun r => length r = c) l ->
  forall idx, (idx < length (concat l))%nat ->
              nth idx (concat l) 0 = nth (idx mod c) (nth (idx / c) l []) 0.
Proof.
  induction 1 as [|r l Hr Hl IH]; intros idx Hidx; simpl in *; [lia |].
  assert (Hc : c <> 0%nat).
  { intro E. rewrite E in Hl, Hr.
    rewrite (concat_empty_rows l Hl), app_nil_r in Hidx. lia. }
  rewrite length_app in Hidx.
  destruct (Nat.lt_ge_cases idx c) as [Hlt | Hge].
  - rewrite app_nth1 by lia.
    rewrite Nat.div_small, Nat.mod_small by lia. reflexivity.
  - rewrite app_nth2 by lia. rewrite Hr.
    rewrite IH by lia.
    replace idx with ((idx - c) + 1 * c)%nat at 3 4 by lia.
    rewrite Nat.div_add, Nat.Div0.mod_add by exact Hc.
    rewrite Nat.add_1_r. reflexivity.
Qed.

(** ** Rounding *)

Lemma py_round_nonpos q : q <= 0 -> (py_round q <= 0)%Z.
Proof.
  intros Hq. unfold py_round.
  pose proof (Qfloor_le q) as Hf.
  assert (Hf0 : (Qfloor q <= 0)%Z).
  { rewrite Zle_Qle. eapply Qle_trans; eauto. }
  destruct (Qcompare (q - inject_Z (Qfloor q)) (1 # 2)) eqn:E.
  - apply Qeq_alt in E.
    assert (Qfloor q <> 0)%Z.
    { intro Z0. rewrite Z0 in E. unfold inject_Z in E. lra. }
    destruct (Z.even (Qfloor q)); lia.
  - exact Hf0.
  - apply Qgt_alt in E.
    assert (Qfloor q <> 0)%Z.
    { intro Z0. rewrite Z0 in E. unfold inject_Z in E. lra. }
    lia.
Qed.


(** A frame count of at least one needs at least one input frame. *)
Lemma positive_count_needs_frames (len : nat) (r fs : Z) :
  (0 < fs)%Z ->
  (1 <= py_round (inject_Z (Z.of_nat len) * inject_Z r / inject_Z fs))%Z ->
  (1 <= len)%nat.
Proof.
  intros Hfs H. destruct len as [|len]; [| lia].
  exfalso.
  assert (E : inject_Z (Z.of_nat 0) * inject_Z r / inject_Z fs <= 0).
  { simpl. unfold Qdiv. rewrite !Qmult_0_l. apply Qle_refl. }
  apply py_round_nonpos in E. lia.
Qed.

(** ** The resampler, the beamformer and the orchestrator *)

Lemma direction_of_map_never_spec_error Lm e :
  direction_of_map Lm <> Raise (SpecErr e).
Proof.
  unfold direction_of_map. destruct (np_argmax (flatten Lm)); simpl; discriminate.
Qed.

(** ** The frame count in binary64 *)

Lemma py_round_unique z n :
  inject_Z n - (1 # 2) < z -> z < inject_Z n + (1 # 2) -> py_round z = n.
Proof.
  intros H1 H2. destruct (py_round_within_half z) as [Hlo Hhi].
  assert (Ha : inject_Z (py_round z) < inject_Z (n + 1)).
  { rewrite inject_Z_plus. change (inject_Z 1) with 1. lra. }
  assert (Hb : inject_Z (n - 1) < inject_Z (py_round z)).
  { unfold Z.sub. rewrite inject_Z_plus. change (inject_Z (- (1))) with (-1). lra. }
  rewrite <- Zlt_Qlt in Ha, Hb. lia.
Qed.

Lemma round64_integer n :
  (Z.abs n < 2 ^ 53)%Z ->
  exists q, round64 (inject_Z n) = Finite q /\ q == inject_Z n.
Proof.
  intros H. apply (round64_exact (inject_Z n) n 0); [| exact H | lia].
  change (inject_Z (2 ^ 0)) with 1. field.
Qed.

Lemma round64_of_positive x : 0 < x -> round64 x = round64_pos x.
Proof. intros H. unfold round64. apply Qgt_alt in H. now rewrite H. Qed.

(** A quotient of two integers below [2^52] and [2^53] is rounded by
    binary64 to a double that Python's [round] sends to the same integer
    as the quotient itself. *)
Lemma py_round_of_rounded_quotient a fs x :
  (0 < a < 2 ^ 52)%Z -> (0 < fs < 2 ^ 53)%Z ->
  x == inject_Z a / inject_Z fs ->
  exists q, round64 x = Finite q /\ py_round q = py_round x.
Proof.
  intros Ha Hfs Ex.
  set (A := inject_Z a) in *. set (F := inject_Z fs) in *.
  assert (HF : 1 <= F).
  { unfold F. change 1 with (inject_Z 1). rewrite <- Zle_Qle. lia. }
  assert (HA : 1 <= A).
  { unfold A. change 1 with (inject_Z 1). rewrite <- Zle_Qle. lia. }
  assert (HFnz : ~ F == 0) by (intro E; lra).
  assert (ExF : x * F == A) by (rewrite Ex; field; exact HFnz).
  assert (Hx : 0 < x).
  { rewrite Ex. apply Qlt_shift_div_l; lra. }
  set (n := py_round x).
  destruct (py_round_within_half x) as [Hlo Hhi]. fold n in Hlo, Hhi.
  set (N := inject_Z n) in *.
  (* the two bounds on [x] as bounds between integers *)
  assert (Zlo : ((2 * n - 1) * fs <= 2 * a)%Z).
  { rewrite Zle_Qle, !inject_Z_mult. unfold Z.sub.
    rewrite inject_Z_plus, inject_Z_mult. fold A F N.
    change (inject_Z 2) with 2. change (inject_Z (- (1))) with (-1). nra. }
  assert (Zhi : (2 * a <= (2 * n + 1) * fs)%Z).
  { rewrite Zle_Qle, !inject_Z_mult, inject_Z_plus, inject_Z_mult. fold A F N.
    change (inject_Z 2) with 2. change (inject_Z 1) with 1. nra. }
  destruct (Z.eq_dec (2 * a) ((2 * n + 1) * fs)) as [T1 | T1];
    [| destruct (Z.eq_dec (2 * a) ((2 * n - 1) * fs)) as [T2 | T2]].
  - (* a tie above: [x] is a half-integer, hence a double *)
    assert (E2 : x == inject_Z (2 * n + 1) / inject_Z (2 ^ 1)).
    { change (inject_Z (2 ^ 1)) with 2.
      assert (E3 : 2 * A == inject_Z (2 * n + 1) * F).
      { unfold A, F. change 2 with (inject_Z 2) at 1.
        rewrite <- !inject_Z_mult. now rewrite T1. }
      apply (Qmult_inj_r _ _ (2 * F)); [intro E; lra |].
      assert (El : x * (2 * F) == 2 * A) by (rewrite <- ExF; ring).
      assert (Er : inject_Z (2 * n + 1) / 2 * (2 * F)
                   == inject_Z (2 * n + 1) * F) by field.
      rewrite El, Er. exact E3. }
    destruct (round64_exact x (2 * n + 1) 1 E2) as [q [Hq Eq]]; [nia | lia |].
    exists q. split; [exact Hq | now apply py_round_comp].
  - assert (E2 : x == inject_Z (2 * n - 1) / inject_Z (2 ^ 1)).
    { change (inject_Z (2 ^ 1)) with 2.
      assert (E3 : 2 * A == inject_Z (2 * n - 1) * F).
      { unfold A, F. change 2 with (inject_Z 2) at 1.
        rewrite <- !inject_Z_mult. now rewrite T2. }
      apply (Qmult_inj_r _ _ (2 * F)); [intro E; lra |].
      assert (El : x * (2 * F) == 2 * A) by (rewrite <- ExF; ring).
      assert (Er : inject_Z (2 * n - 1) / 2 * (2 * F)
                   == inject_Z (2 * n - 1) * F) by field.
      rewrite El, Er. exact E3. }
    destruct (round64_exact x (2 * n - 1) 1 E2) as [q [Hq Eq]]; [nia | lia |].
    exists q. split; [exact Hq | now apply py_round_comp].
  - (* no tie: the rounding error is smaller than the distance to one *)
    assert (G1 : 1 <= (2 * N + 1) * F - 2 * A).
    { assert (G : (1 <= (2 * n + 1) * fs - 2 * a)%Z) by lia.
      rewrite Zle_Qle in G. unfold Z.sub in G.
      rewrite inject_Z_plus, inject_Z_opp, !inject_Z_mult,
        inject_Z_plus, inject_Z_mult in G.
      exact G. }
    assert (G2 : 1 <= 2 * A - (2 * N - 1) * F).
    { assert (G : (1 <= 2 * a - (2 * n - 1) * fs)%Z) by lia.
      rewrite Zle_Qle in G. unfold Z.sub in G.
      rewrite inject_Z_plus, inject_Z_opp, !inject_Z_mult,
        inject_Z_plus, inject_Z_mult in G.
      exact G. }
    rewrite round64_of_positive by exact Hx.
    destruct (round64_pos_error x) as [q [Hq [E1 E2]]].
    + apply Qle_trans with (pow2 (-53)); [apply pow2_le; lia |].
      rewrite (pow2_nonpos_exponent (-53)) by lia.
      apply Qle_shift_inv_r; [apply inject_Z_pow2_pos; lia |].
      assert (HF53 : F <= inject_Z (2 ^ 53))
        by (unfold F; rewrite <- Zle_Qle; lia).
      change (- -53)%Z with 53%Z. nra.
    + apply Qlt_le_trans with (pow2 52); [| apply pow2_le; lia].
      rewrite (pow2_nonneg_exponent 52) by lia.
      assert (HA52 : A < inject_Z (2 ^ 52))
        by (unfold A; rewrite <- Zlt_Qlt; lia).
      nra.
    + exists q. split; [exact Hq |].
      set (u := pow2 (-53)) in *.
      assert (Hu : 0 < u) by apply pow2_pos.
      assert (HAu : 2 * A * u < 1).
      { assert (HA52 : 2 * A + 1 <= inject_Z (2 ^ 53)).
        { assert (G : (2 * a + 1 <= 2 ^ 53)%Z) by lia.
          rewrite Zle_Qle, inject_Z_plus, inject_Z_mult in G. exact G. }
        assert (Eu : u * inject_Z (2 ^ 53) == 1).
        { unfold u. rewrite (pow2_nonpos_exponent (-53)) by lia.
          change (- -53)%Z with 53%Z. field.
          apply inject_Z_pow2_nonzero. lia. }
        nra. }
      apply py_round_unique; fold N.
      * assert (D : 0 < (q - (N - (1 # 2))) * (2 * F)); [| nra].
        assert (D1 : (x - x * u - (N - (1 # 2))) * (2 * F)
                     == 2 * A - (2 * N - 1) * F - 2 * A * u)
          by (rewrite <- ExF; ring).
        nra.
      * assert (D : 0 < (N + (1 # 2) - q) * (2 * F)); [| nra].
        assert (D1 : (N + (1 # 2) - (x + x * u)) * (2 * F)
                     == (2 * N + 1) * F - 2 * A - 2 * A * u)
          by (rewrite <- ExF; ring).
        nra.
Qed.

(** Within the bound, binary64 yields the frame count of the exact
    quotient. *)
Lemma binary64_frame_count_exact len target_fs fs :
  (0 < target_fs)%Z -> (0 < fs)%Z ->
  count_within_binary64 len target_fs fs ->
  binary64_frame_count len target_fs fs
  = Some (py_round (inject_Z (Z.of_nat len) * inject_Z target_fs / inject_Z fs)).
Proof.
  intros Hr Hfs [Hprod [Hr53 Hfs53]]. unfold binary64_frame_count.
  assert (Hlen : (Z.of_nat len < 2 ^ 53)%Z) by nia.
  destruct (round64_integer (Z.of_nat len)) as [ql [Hl El]]; [lia |].
  destruct (round64_integer target_fs) as [qr [Hqr Er]]; [lia |].
  rewrite Hl, Hqr.
  assert (Hfsnz : ~ inject_Z fs == 0).
  { intro E. apply (inject_Z_injective fs 0) in E. lia. }
  assert (Ep : ql * qr == inject_Z (Z.of_nat len * target_fs) / inject_Z (2 ^ 0)).
  { change (inject_Z (2 ^ 0)) with 1. rewrite El, Er, inject_Z_mult. field. }
  destruct (round64_exact _ _ 0 Ep) as [qa [Ha Ea]]; [nia | lia |].
  unfold np_mul. rewrite Ha. rewrite np_div_finite by exact Hfsnz.
  assert (Ex : qa / inject_Z fs
               == inject_Z (Z.of_nat len * target_fs) / inject_Z fs).
  { rewrite Ea, El, Er. now rewrite inject_Z_mult. }
  assert (Ee : inject_Z (Z.of_nat len) * inject_Z target_fs / inject_Z fs
               == qa / inject_Z fs).
  { rewrite Ex. now rewrite inject_Z_mult. }
  rewrite (py_round_comp _ _ Ee).
  destruct (Z.eq_dec (Z.of_nat len * target_fs) 0) as [Z0 | Z0].
  - assert (E0 : qa / inject_Z fs == 0).
    { rewrite Ex, Z0. unfold Qdiv. apply Qmult_0_l. }
    rewrite (round64_comp _ _ E0). unfold round64. simpl.
    now rewrite (py_round_comp _ _ E0).
  - destruct (py_round_of_rounded_quotient
                (Z.of_nat len * target_fs) fs (qa / inject_Z fs))
      as [q [Hq Eq]]; try assumption; try nia.
    rewrite Hq. now rewrite Eq.
Qed.

Section PipelineFacts.

Variable sf_read : string -> lib (sf_data * Z).
Variable scipy_signal_resample : ndarray -> Z -> lib ndarray.
Variable MicGeom_from_file : string -> lib MicGeom.
Variable synthetic_Lp : TimeSamples -> MicGeom -> RectGrid -> Z -> lib ndarray.
Variable basename : string -> string.

Local Abbreviation resample := (resample_acoular_ts scipy_signal_resample).
Local Abbreviation beamform :=
  (beamform_and_detect_direction MicGeom_from_file synthetic_Lp).
Local Abbreviation load := (load_audio_from_wav sf_read).
Local Abbreviation run :=
  (main sf_read scipy_signal_resample MicGeom_from_file synthetic_Lp basename).


Lemma resample_other_rate w ts obj target_fs :
  deref (objects w) ts = Some obj ->
  sample_freq obj <> 0%Z ->
  sample_freq obj <> target_fs ->
  resample ts target_fs w =
  match scipy_signal_resample (data obj)
          (py_round (inject_Z (Z.of_nat (shape0 (data obj)))
                     * inject_Z target_fs / inject_Z (sample_freq obj))) with
  | Return d => (with_new w d target_fs, Return (length (objects w)))
  | Raise e => (w, Raise (PyExc e))
  end.
Proof.
  intros Hd H0 Hne.
  unfold resample_acoular_ts, iobind, get_ts, lift, resampled_length.
  rewrite Hd.
  apply Z.eqb_neq in Hne. rewrite Hne. simpl.
  apply Z.eqb_neq in H0. rewrite H0.
  destruct (scipy_signal_resample _ _); reflexivity.
Qed.

(** C6.  Resampling a signal to its own rate returns the very object that
    was passed in, and leaves the store, hence its frames and its rate,
    untouched: nothing is copied. *)
Theorem resample_same_rate_is_identity w ts obj :
  deref (objects w) ts = Some obj ->
  resample ts (sample_freq obj) w = (w, Return ts).
Proof.
  intros Hd. unfold resample_acoular_ts, iobind, get_ts.
  rewrite Hd, Z.eqb_refl. reflexivity.
Qed.

(** C7, as amended.  For a signal of positive rate and a positive target
    rate different from it, with the product of length and target rate
    below [2^52] and both rates below [2^53], whenever the frame count
    [round(len(s) * r / s.rate)] is at least one, resampling returns a
    new object (a reference that did not exist before) holding exactly
    that many frames at rate [r], with the channel count of the input and
    each channel resampled from the same channel of the input; every
    object of the store, the input included, is as it was.  Within the
    bound the count that binary64 arrives at is the rounding of the exact
    quotient. *)
Theorem resample_new_rate_frame_count w ts obj target_fs :
  resample_contract scipy_signal_resample ->
  deref (objects w) ts = Some obj ->
  wf_ndarray (data obj) ->
  (0 < sample_freq obj)%Z -> (0 < target_fs)%Z ->
  target_fs <> sample_freq obj ->
  count_within_binary64 (num_samples obj) target_fs (sample_freq obj) ->
  (1 <= py_round (inject_Z (Z.of_nat (num_samples obj))
                  * inject_Z target_fs / inject_Z (sample_freq obj)))%Z ->
  exists d,
    resample ts target_fs w
      = (with_new w d target_fs, Return (length (objects w))) /\
    Z.of_nat (shape0 d)
      = py_round (inject_Z (Z.of_nat (num_samples obj))
                  * inject_Z target_fs / inject_Z (sample_freq obj)) /\
    binary64_frame_count (num_samples obj) target_fs (sample_freq obj)
      = Some (Z.of_nat (shape0 d)) /\
    shape1 d = num_channels obj /\
    wf_ndarray d /\
    (forall j, (j < num_channels obj)%nat ->
       exists yj,
         scipy_signal_resample (single_channel j (data obj))
           (py_round (inject_Z (Z.of_nat (num_samples obj))
                      * inject_Z target_fs / inject_Z (sample_freq obj)))
         = Return yj /\
         column j d = column 0 yj) /\
    deref (objects w) (length (objects w)) = None /\
    (forall r o, deref (objects w) r = Some o ->
                 deref (objects (with_new w d target_fs)) r = Some o).
Proof.
  intros Hlib Hd Hwf Hfs Hr Hne Hbound Hn.
  pose proof (binary64_frame_count_exact _ _ _ Hr Hfs Hbound) as Hb64.
  unfold num_samples, num_channels in *.
  pose proof (positive_count_needs_frames _ _ _ Hfs Hn) as Hlen.
  destruct (Hlib _ _ Hwf Hlen Hn) as [y [Hy [Hy0 [Hy1 [Hywf Hcols]]]]].
  exists y. repeat split; try assumption.
  - rewrite (resample_other_rate w ts obj target_fs Hd) by lia.
    rewrite Hy. reflexivity.
  - now rewrite Hy0.
  - apply nth_error_None. unfold heap. lia.
  - intros r o Ho. unfold deref, with_new in *. simpl.
    rewrite nth_error_app1; [exact Ho |].
    apply nth_error_Some. congruence.
Qed.

(** A signal without frames cannot be resampled to another rate: the
    count is zero and the library rejects the empty input. *)
Lemma resample_empty_signal_raises w ts obj target_fs :
  rejects_empty_input scipy_signal_resample ->
  deref (objects w) ts = Some obj ->
  num_samples obj = 0%nat ->
  sample_freq obj <> 0%Z -> target_fs <> sample_freq obj ->
  exists e, resample ts target_fs w = (w, Raise (PyExc e)).
Proof.
  intros Hlib Hd Hn H0 Hne.
  rewrite (resample_other_rate w ts obj target_fs Hd) by congruence.
  destruct (Hlib (data obj)
              (py_round (inject_Z (Z.of_nat (shape0 (data obj)))
                         * inject_Z target_fs / inject_Z (sample_freq obj)))
              Hn) as [e He].
  rewrite He. eauto.
Qed.


(** C5.  When the library hands back a non-empty power map, the
    beamformer picks the first cell, in row-major order, that holds the
    largest value, and answers left-to-right exactly when that cell's
    column index minus half the column count (rounded down) is positive;
    in every other case, a peak at the centre column included, it answers
    right-to-left. *)
Theorem beamform_direction_from_peak test_ts path grid ref_freq mg Lm :
  MicGeom_from_file path = Return mg ->
  synthetic_Lp test_ts mg grid ref_freq = Return Lm ->
  wf_ndarray Lm -> flatten Lm <> [] ->
  exists idx,
    np_argmax (flatten Lm) = Return idx /\
    first_max (flatten Lm) idx /\
    entry Lm (idx / shape1 Lm) (idx mod shape1 Lm) = nth idx (flatten Lm) 0 /\
    beamform test_ts path grid ref_freq =
    Return (if (0 <? Z.of_nat (idx mod shape1 Lm) - Z.of_nat (shape1 Lm / 2))%Z
            then left_to_right else right_to_left) /\
    (beamform test_ts path grid ref_freq = Return left_to_right <->
     (0 < Z.of_nat (idx mod shape1 Lm) - Z.of_nat (shape1 Lm / 2))%Z).
Proof using MicGeom_from_file synthetic_Lp.
  clear sf_read scipy_signal_resample basename.
  intros Hmg HLm Hwf Hne.
  destruct (np_argmax_first_max _ Hne) as [idx [Hidx Hfirst]].
  exists idx. split; [exact Hidx |]. split; [exact Hfirst |].
  assert (Hb : beamform test_ts path grid ref_freq =
               Return (if (0 <? Z.of_nat (idx mod shape1 Lm)
                                - Z.of_nat (shape1 Lm / 2))%Z
                       then left_to_right else right_to_left)).
  { unfold beamform_and_detect_direction. rewrite Hmg. simpl.
    rewrite HLm. simpl. unfold direction_of_map. rewrite Hidx. reflexivity. }
  split; [| split; [exact Hb |]].
  - unfold entry, flatten. symmetry.
    apply nth_concat_rows; [exact Hwf | apply Hfirst].
  - rewrite Hb. destruct (Z.ltb_spec 0
      (Z.of_nat (idx mod shape1 Lm) - Z.of_nat (shape1 Lm / 2))).
    + tauto.
    + split; [discriminate | lia].
Qed.

(** C9, as amended.  The beamformer compares the channel count of the
    signal with the number of microphones nowhere and never raises
    [GeometryMismatchError]: also when the two counts differ, its outcome
    is the direction read off the power map that the library returns, or
    the exception that the library raises, propagated as it is. *)
Theorem beamform_has_no_geometry_check test_ts path grid ref_freq mg :
  MicGeom_from_file path = Return mg ->
  num_channels test_ts <> length mg ->
  beamform test_ts path grid ref_freq =
    match synthetic_Lp test_ts mg grid ref_freq with
    | Return Lm => direction_of_map Lm
    | Raise e => Raise (PyExc e)
    end /\
  beamform test_ts path grid ref_freq <> Raise (SpecErr GeometryMismatchError).
Proof.
  intros Hmg _.
  assert (E : beamform test_ts path grid ref_freq =
              match synthetic_Lp test_ts mg grid ref_freq with
              | Return Lm => direction_of_map Lm
              | Raise e => Raise (PyExc e)
              end).
  { unfold beamform_and_detect_direction. rewrite Hmg. simpl.
    destruct (synthetic_Lp test_ts mg grid ref_freq); reflexivity. }
  split; [exact E |]. rewrite E.
  destruct (synthetic_Lp test_ts mg grid ref_freq);
    [apply direction_of_map_never_spec_error | discriminate].
Qed.

(** Loading and resampling print nothing and leave the clock alone; a
    successful load returns a live reference to the object it created. *)
Lemma load_keeps_output wav_file w w1 r :
  load wav_file w = (w1, r) -> stdout w1 = stdout w /\ clock w1 = clock w.
Proof using sf_read.
  clear. unfold load_audio_from_wav, iobind, lift, new_TimeSamples.
  destruct (sf_read wav_file) as [[d fs] | e]; simpl;
    intros H; injection H as <- _; auto.
Qed.

Lemma load_returns_live_reference wav_file w w1 r :
  load wav_file w = (w1, Return r) ->
  exists obj, objects w1 = objects w ++ [obj] /\ deref (objects w1) r = Some obj.
Proof using sf_read.
  clear. unfold load_audio_from_wav, iobind, lift, new_TimeSamples.
  destruct (sf_read wav_file) as [[d fs] | e]; simpl;
    intros H; [| discriminate].
  injection H as <- <-. simpl. eexists. split; [reflexivity |].
  unfold deref. now rewrite nth_error_app2, Nat.sub_diag by lia.
Qed.

Lemma resample_keeps_output ts target_fs w w1 r :
  resample ts target_fs w = (w1, r) ->
  stdout w1 = stdout w /\ clock w1 = clock w.
Proof using scipy_signal_resample.
  clear. unfold resample_acoular_ts, iobind, get_ts, lift, ret, new_TimeSamples.
  destruct (deref (objects w) ts) as [obj |];
    [| intros H; injection H as <- _; auto].
  destruct (negb (sample_freq obj =? target_fs)%Z);
    [| intros H; injection H as <- _; auto].
  destruct (resampled_length _ _ _);
    [| intros H; injection H as <- _; auto].
  destruct (scipy_signal_resample _ _); simpl;
    intros H; injection H as <- _; auto.
Qed.

(** C10, as amended.  In a run in which no stage raises (both files load,
    the resampling returns, and the beamformer returns a direction if the
    matcher says true), the orchestrator ends by printing the total and
    the detection times after whatever was printed before, also when
    nothing matched; before them it prints the detection line exactly when
    the matcher returned true.  The counter is one and one time stamp is
    logged exactly when the matcher returned true, otherwise the counter
    is zero and the log empty; the counter is the length of the log.
    Output is what the [print] calls of [test.py] write. *)
Theorem main_reports_detections
    stationary_car_wav_file input_wav_file mic_array_geometry
    w w1 w2 w3 reference_ts test_ts resampled_ts reference test matched :
  load stationary_car_wav_file w = (w1, Return reference_ts) ->
  load input_wav_file w1 = (w2, Return test_ts) ->
  deref (objects w2) reference_ts = Some reference ->
  resample test_ts (sample_freq reference) w2 = (w3, Return resampled_ts) ->
  deref (objects w3) resampled_ts = Some test ->
  match_car_sound reference test default_threshold = Return matched ->
  (matched = true ->
   exists d, beamform test mic_array_geometry search_grid default_ref_freq
             = Return d) ->
  exists w' rep shown,
    run stationary_car_wav_file input_wav_file mic_array_geometry w
      = (w', Return rep) /\
    stdout w' = stdout w ++ shown
                ++ [TotalCars (total_cars rep); DetectionTimes (times rep)] /\
    (matched = true ->
     total_cars rep = 1%Z /\ times rep = [clock w] /\
     exists d, beamform test mic_array_geometry search_grid default_ref_freq
               = Return d /\
               shown = [CarDetected (basename input_wav_file) d]) /\
    (matched = false ->
     total_cars rep = 0%Z /\ times rep = [] /\ shown = []) /\
    total_cars rep = Z.of_nat (length (times rep)) /\
    (total_cars rep = 0%Z \/ total_cars rep = 1%Z).
Proof.
  intros H1 H2 Hr H3 Ht Hm Hb.
  destruct (load_keeps_output _ _ _ _ H1) as [So1 Ck1].
  destruct (load_keeps_output _ _ _ _ H2) as [So2 Ck2].
  destruct (resample_keeps_output _ _ _ _ _ H3) as [So3 Ck3].
  assert (So : stdout w3 = stdout w) by congruence.
  assert (Ck : clock w3 = clock w) by congruence.
  unfold main, iobind. rewrite H1, H2.
  unfold get_ts at 1. rewrite Hr. rewrite H3.
  unfold get_ts at 1. rewrite Ht.
  unfold lift at 1. rewrite Hm.
  destruct matched.
  - destruct (Hb eq_refl) as [d Hd].
    unfold lift, iobind. rewrite Hd. simpl.
    eexists _, _, [CarDetected (basename input_wav_file) d].
    split; [reflexivity |]. simpl. rewrite So, Ck.
    split; [rewrite <- !app_assoc; reflexivity |].
    repeat split; try discriminate; eauto.
  - simpl. eexists _, _, []. split; [reflexivity |]. simpl. rewrite So.
    split; [rewrite <- !app_assoc; reflexivity |].
    repeat split; try discriminate; eauto.
Qed.

End PipelineFacts.

(** ** The stand-ins meet the library contracts *)

Lemma stub_resample_contract : resample_contract Stub.scipy_signal_resample.
Proof.
  intros x num Hwf Hlen Hnum. unfold Stub.scipy_signal_resample.
  unfold shape0 in Hlen. unfold wf_ndarray in Hwf.
  destruct (rows x) as [|r rest] eqn:Ex; [simpl in Hlen; lia |].
  assert (Hr : length r = shape1 x) by (inversion Hwf; assumption).
  destruct (Z.leb_spec num 0) as [Hle | _]; [lia |].
  eexists. split; [reflexivity |]. unfold shape0, wf_ndarray. simpl.
  rewrite repeat_length. repeat split.
  - lia.
  - apply Forall_forall. intros y Hy. apply repeat_spec in Hy. now subst y.
  - intros j Hj. unfold single_channel. rewrite Ex. simpl.
    destruct (Z.leb_spec num 0) as [Hle | _]; [lia |].
    eexists. split; [reflexivity |].
    unfold column. simpl. now rewrite !map_repeat.
Qed.

Lemma stub_rejects_empty_input : rejects_empty_input Stub.scipy_signal_resample.
Proof.
  intros x num Hx. unfold Stub.scipy_signal_resample, shape0 in *.
  destruct (rows x); [eauto | discriminate].
Qed.

(** ** Runs on concrete inputs *)

Lemma beamform_direction_from_peak_witness :
  exists idx,
    np_argmax (flatten Stub.power_map) = Return idx /\
    idx = 8%nat /\
    beamform_and_detect_direction Stub.MicGeom_from_file Stub.synthetic_Lp
      Stub.event "4_linear.xml"%string search_grid default_ref_freq
    = Return left_to_right.
Proof.
  destruct (beamform_direction_from_peak
              Stub.MicGeom_from_file Stub.synthetic_Lp
              Stub.event "4_linear.xml"%string search_grid default_ref_freq
              (Stub.linear_array 4) Stub.power_map)
    as [idx [Hidx [_ [_ [Hb _]]]]].
  - reflexivity.
  - reflexivity.
  - repeat constructor.
  - discriminate.
  - exists idx. split; [exact Hidx |].
    assert (E : idx = 8%nat) by (vm_compute in Hidx; congruence).
    split; [exact E |]. rewrite Hb, E. reflexivity.
Defined.

(** A peak in the centre column, and a largest value that occurs twice:
    the first occurrence, left of the centre, decides. *)
Example peak_at_centre_is_right_to_left :
  direction_of_map {| rows := [[1; 5; 9; 5; 1]]; shape1 := 5 |}
  = Return right_to_left.
Proof. reflexivity. Qed.

Example tie_takes_first_occurrence :
  np_argmax (flatten {| rows := [[0; 9; 0; 0]; [0; 0; 0; 9]]; shape1 := 4 |})
  = Return 1%nat /\
  direction_of_map {| rows := [[0; 9; 0; 0]; [0; 0; 0; 9]]; shape1 := 4 |}
  = Return right_to_left.
Proof. split; reflexivity. Qed.

Example peak_right_of_centre_is_left_to_right :
  direction_of_map {| rows := [[0; 0; 0; 9]; [0; 0; 0; 0]]; shape1 := 4 |}
  = Return left_to_right.
Proof. reflexivity. Qed.

Lemma resample_same_rate_is_identity_witness :
  resample_acoular_ts Stub.scipy_signal_resample 0%nat 16000 Stub.loaded
  = (Stub.loaded, Return 0%nat).
Proof.
  apply (resample_same_rate_is_identity
           Stub.scipy_signal_resample Stub.loaded 0%nat Stub.event).
  reflexivity.
Defined.

Lemma resample_new_rate_frame_count_witness :
  exists d,
    resample_acoular_ts Stub.scipy_signal_resample 0%nat 8000 Stub.loaded
    = (with_new Stub.loaded d 8000, Return 1%nat) /\
    Z.of_nat (shape0 d) = 2%Z /\
    binary64_frame_count 4 8000 16000 = Some (Z.of_nat (shape0 d)) /\
    shape1 d = 4%nat.
Proof.
  destruct (resample_new_rate_frame_count
              Stub.scipy_signal_resample Stub.loaded 0%nat Stub.event 8000)
    as [d [H1 [H2 [H3 [H4 _]]]]].
  - exact stub_resample_contract.
  - reflexivity.
  - repeat constructor.
  - reflexivity.
  - reflexivity.
  - discriminate.
  - repeat split.
  - discriminate.
  - exists d. repeat split; assumption.
Defined.

(** C7 as stated fails.  On a signal without frames, resampling from
    16000 Hz to 8000 Hz asks the library for [round(0 * 8000 / 16000) = 0]
    frames of an empty input, the library raises, and no signal is
    produced.  And beyond the bound the count is not the rounding of the
    quotient: for one frame at rate 3 and the target rate
    6755399441055748 the quotient is 2251799813685249.33, binary64 holds
    2251799813685249.5 and [round] makes 2251799813685250 of it. *)
Lemma resample_empty_signal_fails :
  (num_samples (signal [] 1) = 0%nat /\
   (0 < 8000)%Z /\ 8000%Z <> sample_freq (signal [] 1) /\
   resample_acoular_ts Stub.scipy_signal_resample 0%nat 8000
     {| objects := [signal [] 1]; stdout := []; clock := 0 |}
   = ({| objects := [signal [] 1]; stdout := []; clock := 0 |},
      Raise (PyExc ValueError))) /\
  (binary64_frame_count 1 6755399441055748 3 = Some 2251799813685250%Z /\
   py_round (inject_Z 1 * inject_Z 6755399441055748 / inject_Z 3)
   = 2251799813685249%Z).
Proof.
  split; [repeat split; discriminate | split; vm_compute; reflexivity].
Qed.



Lemma beamform_has_no_geometry_check_witness :
  beamform_and_detect_direction Stub.MicGeom_from_file Stub.synthetic_Lp
    Stub.event "2_linear.xml"%string search_grid default_ref_freq
  <> Raise (SpecErr GeometryMismatchError).
Proof.
  apply (beamform_has_no_geometry_check
           Stub.MicGeom_from_file Stub.synthetic_Lp
           Stub.event "2_linear.xml"%string search_grid default_ref_freq
           (Stub.linear_array 2)).
  - reflexivity.
  - discriminate.
Defined.

(** C9 as stated fails: a four-channel signal against a geometry of two
    microphones does not raise [GeometryMismatchError]; what the caller sees
    is whatever the library does with the mismatch, here its [ValueError]. *)
Lemma channel_mismatch_is_not_geometry_mismatch_error :
  num_channels Stub.event = 4%nat /\
  Stub.MicGeom_from_file "2_linear.xml"%string = Return (Stub.linear_array 2) /\
  length (Stub.linear_array 2) = 2%nat /\
  beamform_and_detect_direction Stub.MicGeom_from_file Stub.synthetic_Lp
    Stub.event "2_linear.xml"%string search_grid default_ref_freq
  = Raise (PyExc ValueError) /\
  beamform_and_detect_direction Stub.MicGeom_from_file Stub.synthetic_Lp
    Stub.event "2_linear.xml"%string search_grid default_ref_freq
  <> Raise (SpecErr GeometryMismatchError).
Proof. repeat split. discriminate. Qed.

Lemma main_reports_detections_witness :
  exists w' rep,
    main Stub.sf_read Stub.scipy_signal_resample Stub.MicGeom_from_file
      Stub.synthetic_Lp Stub.basename "car.wav"%string "event.wav"%string "4_linear.xml"%string
      Stub.start
    = (w', Return rep) /\
    total_cars rep = 1%Z /\ times rep = [clock Stub.start] /\
    stdout w' = [CarDetected "event.wav"%string left_to_right;
                 TotalCars 1; DetectionTimes [clock Stub.start]].
Proof.
  destruct (main_reports_detections
              Stub.sf_read Stub.scipy_signal_resample Stub.MicGeom_from_file
              Stub.synthetic_Lp Stub.basename
              "car.wav"%string "event.wav"%string "4_linear.xml"%string
              Stub.start
              (with_new Stub.start Stub.car_data 16000)
              (with_new (with_new Stub.start Stub.car_data 16000)
                 Stub.four_mics 16000)
              (with_new (with_new Stub.start Stub.car_data 16000)
                 Stub.four_mics 16000)
              0%nat 1%nat 1%nat
              {| data := Stub.car_data; sample_freq := 16000 |}
              Stub.event true)
    as [w' [rep [shown [Hrun [Hout [Hyes _]]]]]].
  - reflexivity.
  - reflexivity.
  - reflexivity.
  - reflexivity.
  - reflexivity.
  - reflexivity.
  - intros _. exists left_to_right. reflexivity.
  - destruct (Hyes eq_refl) as [Hc [Ht [d [Hd Hs]]]].
    exists w', rep. repeat split; try assumption.
    rewrite Hout, Hs, Hc, Ht.
    assert (Ed : d = left_to_right) by (vm_compute in Hd; congruence).
    rewrite Ed. reflexivity.
Defined.

(** C10 as stated fails for a run in which a stage raises.  With a
    geometry of two microphones for the four-channel recording the matcher
    says true, the beamformer raises, and the run ends there: nothing is
    counted and neither the total nor the detection times are printed. *)
Lemma aborted_run_reports_nothing :
  match_car_sound {| data := Stub.car_data; sample_freq := 16000 |} Stub.event
    default_threshold = Return true /\
  beamform_and_detect_direction Stub.MicGeom_from_file Stub.synthetic_Lp
    Stub.event "2_linear.xml"%string search_grid default_ref_freq
  = Raise (PyExc ValueError) /\
  snd (main Stub.sf_read Stub.scipy_signal_resample Stub.MicGeom_from_file
         Stub.synthetic_Lp Stub.basename
         "car.wav"%string "event.wav"%string "2_linear.xml"%string Stub.start)
  = Raise (PyExc ValueError) /\
  stdout (fst (main Stub.sf_read Stub.scipy_signal_resample
                 Stub.MicGeom_from_file Stub.synthetic_Lp Stub.basename
                 "car.wav"%string "event.wav"%string "2_linear.xml"%string
                 Stub.start))
  = [].
Proof. repeat split; vm_compute; reflexivity. Qed.

(** A run in which nothing matches still ends with the two report lines. *)
Example main_reports_zero_detections :
  snd (main Stub.sf_read Stub.scipy_signal_resample Stub.MicGeom_from_file
         Stub.synthetic_Lp Stub.basename
         "silence.wav"%string "event.wav"%string "4_linear.xml"%string Stub.start)
  = Return {| total_cars := 0; times := [] |} /\
  stdout (fst (main Stub.sf_read Stub.scipy_signal_resample
                 Stub.MicGeom_from_file Stub.synthetic_Lp Stub.basename
                 "silence.wav"%string "event.wav"%string "4_linear.xml"%string Stub.start))
  = [TotalCars 0; DetectionTimes []].
Proof. split; reflexivity. Qed.

(** * Further properties of [test.py] *)

(** ** What decides the matcher *)

(** A nan among the normalized values makes the result false. *)
Lemma match_nan_normalized reference_ts test_ts threshold m :
  np_max (correlation_of reference_ts test_ts) = Return m ->
  In NaN (normalized (correlation_of reference_ts test_ts) m) ->
  match_car_sound reference_ts test_ts threshold = Return false.
Proof.
  intros Hm Hn. rewrite match_car_sound_eq, Hm. simpl.
  now rewrite (np_max_has_nan _ Hn).
Qed.

(** The largest value divided by itself is nan when it is zero, infinite or
    nan. *)
Lemma match_degenerate_maximum reference_ts test_ts threshold m :
  np_max (correlation_of reference_ts test_ts) = Return m ->
  In m (correlation_of reference_ts test_ts) ->
  np_div m m = NaN ->
  match_car_sound reference_ts test_ts threshold = Return false.
Proof.
  intros Hm Hin Hd. apply (match_nan_normalized _ _ _ m Hm).
  unfold normalized. apply in_map_iff. eauto.
Qed.

Lemma match_true_iff reference_ts test_ts threshold :
  match_car_sound reference_ts test_ts threshold = Return true <->
  exceeds_after_normalizing (correlation_of reference_ts test_ts) threshold.
Proof.
  destruct (np_max_total _ (correlation_of_nonempty reference_ts test_ts))
    as [m Hm].
  set (corr := correlation_of reference_ts test_ts) in *.
  assert (Hfalse : match_car_sound reference_ts test_ts threshold = Return false ->
                   ~ exceeds_after_normalizing corr threshold ->
                   match_car_sound reference_ts test_ts threshold = Return true <->
                   exceeds_after_normalizing corr threshold).
  { intros E H. rewrite E. split; [discriminate | intros C; contradiction]. }
  destruct (np_max_cases _ _ Hm) as [[-> Hnan] | [Hmn [Hnn [Hin Hall]]]].
  - apply Hfalse.
    + apply (match_nan_normalized _ _ _ NaN Hm).
      unfold normalized. apply in_map_iff. exists NaN. split; [reflexivity | exact Hnan].
    + intros [m' [v [_ [Hall' _]]]]. rewrite Forall_forall in Hall'.
      exact (Hall' _ Hnan).
  - rewrite Forall_forall in Hall.
    destruct m as [q | | |]; [| | | congruence].
    + destruct (Qeq_dec q 0) as [Hz | Hnz].
      * apply Hfalse.
        -- apply (match_degenerate_maximum _ _ _ _ Hm Hin).
           now apply np_div_zero_by_zero.
        -- intros [m' [v [Hm' [Hall' [Hnz' _]]]]]. apply Hnz'.
           rewrite Forall_forall in Hall'.
           pose proof (Hall _ Hm') as H1. pose proof (Hall' _ Hin) as H2.
           simpl in H1, H2. rewrite <- Hz. now apply Qle_antisym.
      * assert (Hnorm : ~ In NaN (normalized corr (Finite q))).
        { unfold normalized. intros H. apply in_map_iff in H.
          destruct H as [x [Hx Hxin]]. revert Hx. apply np_div_not_nan.
          - intros ->. contradiction.
          - exact Hnz. }
        destruct (np_max_total (normalized corr (Finite q))) as [top Htop].
        { unfold normalized. intros E. apply map_eq_nil in E.
          now apply correlation_of_nonempty in E. }
        assert (Hres : match_car_sound reference_ts test_ts threshold
                       = Return (existsb (fun v => np_gt v threshold)
                                         (normalized corr (Finite q)))).
        { rewrite match_car_sound_eq. fold corr. rewrite Hm. simpl.
          rewrite Htop. simpl. f_equal. now apply np_gt_np_max. }
        rewrite Hres. split.
        -- intros H. injection H as H. apply existsb_exists in H.
           destruct H as [x [Hx Hg]]. unfold normalized in Hx.
           apply in_map_iff in Hx. destruct Hx as [v [<- Hv]].
           exists q, v. split; [exact Hin |]. split.
           { apply Forall_forall. exact Hall. }
           split; [exact Hnz |]. split; assumption.
        -- intros [m' [v [Hm' [Hall' [Hnz' [Hv Hg]]]]]].
           f_equal. apply existsb_exists.
           exists (np_div v (Finite q)). split.
           { unfold normalized. apply in_map_iff. eauto. }
           rewrite Forall_forall in Hall'.
           pose proof (Hall _ Hm') as H1. pose proof (Hall' _ Hin) as H2.
           simpl in H1, H2.
           assert (Em : m' == q) by now apply Qle_antisym.
           rewrite <- (np_div_same_value v v (Finite m') (Finite q)
                         (same_value_refl v) Em).
           exact Hg.
    + apply Hfalse.
      * now apply (match_degenerate_maximum _ _ _ _ Hm Hin).
      * intros [m' [v [_ [Hall' _]]]]. rewrite Forall_forall in Hall'.
        exact (Hall' _ Hin).
    + apply Hfalse.
      * now apply (match_degenerate_maximum _ _ _ _ Hm Hin).
      * intros [m' [v [Hm' _]]]. exact (Hall _ Hm').
Qed.

Lemma match_false_iff reference_ts test_ts threshold :
  match_car_sound reference_ts test_ts threshold = Return false <->
  ~ exceeds_after_normalizing (correlation_of reference_ts test_ts) threshold.
Proof.
  pose proof (match_true_iff reference_ts test_ts threshold) as Hiff.
  destruct (match_returns_bool reference_ts test_ts threshold) as [[|] Hb];
    rewrite Hb in *.
  - split; [discriminate |]. intros H. exfalso. apply H, Hiff. reflexivity.
  - split; [| reflexivity]. intros _ H. apply Hiff in H. discriminate.
Qed.

(** Two calls whose correlation arrays decide alike return alike. *)
Lemma match_agree r1 t1 r2 t2 threshold :
  (exceeds_after_normalizing (correlation_of r1 t1) threshold <->
   exceeds_after_normalizing (correlation_of r2 t2) threshold) ->
  match_car_sound r1 t1 threshold = match_car_sound r2 t2 threshold.
Proof.
  intros H.
  pose proof (match_true_iff r1 t1 threshold) as H1.
  pose proof (match_true_iff r2 t2 threshold) as H2.
  destruct (match_returns_bool r1 t1 threshold) as [[|] E1];
    destruct (match_returns_bool r2 t2 threshold) as [[|] E2];
    rewrite E1, E2 in *; try reflexivity; exfalso.
  - assert (C : @Return exn bool false = Return true)
      by (apply H2, H, H1; reflexivity). discriminate.
  - assert (C : @Return exn bool false = Return true)
      by (apply H1, H, H2; reflexivity). discriminate.
Qed.

(** X1.  [match_car_sound] returns true exactly when the largest
    correlation value is finite and not zero and some correlation value
    divided by it is greater than the threshold; in every other case, a
    largest value that is zero, infinite or nan included, it returns
    false. *)
Theorem match_car_sound_decided_by reference_ts test_ts threshold :
  (match_car_sound reference_ts test_ts threshold = Return true <->
   exceeds_after_normalizing (correlation_of reference_ts test_ts) threshold)
  /\
  (match_car_sound reference_ts test_ts threshold = Return false <->
   ~ exceeds_after_normalizing (correlation_of reference_ts test_ts) threshold).
Proof.
  split; [apply match_true_iff | apply match_false_iff].
Qed.

(** X2.  As soon as the largest correlation value is a positive finite
    number, the similarity of the two signals no longer matters: the
    function returns true exactly when the threshold is below one, and
    false exactly when the threshold is one or more. *)
Theorem match_car_sound_positive_correlation reference_ts test_ts threshold q :
  np_max (correlation_of reference_ts test_ts) = Return (Finite q) ->
  0 < q ->
  (match_car_sound reference_ts test_ts threshold = Return true <->
   threshold < 1) /\
  (match_car_sound reference_ts test_ts threshold = Return false <->
   1 <= threshold).
Proof.
  intros Hm Hpos.
  destruct (normalized_max_one _ _ Hm) as [q1 [Hq E1]].
  { left. eauto. }
  assert (Hres : match_car_sound reference_ts test_ts threshold
                 = Return (negb (Qle_bool q1 threshold))).
  { rewrite match_car_sound_eq, Hm. simpl. rewrite Hq. reflexivity. }
  rewrite Hres. split; split.
  - intros H. injection H as H. apply Qgt_bool_iff in H. now rewrite <- E1.
  - intros H. f_equal. apply Qgt_bool_iff. now rewrite E1.
  - intros H. injection H as H. apply negb_false_iff, Qle_bool_iff in H.
    now rewrite <- E1.
  - intros H. f_equal. apply negb_false_iff, Qle_bool_iff. now rewrite E1.
Qed.

Lemma match_car_sound_positive_correlation_witness :
  (match_car_sound (signal [[1; 2]] 2) (signal [[3; -1]] 2) (99 # 100)
   = Return true <-> (99 # 100) < 1) /\
  (match_car_sound (signal [[1; 2]] 2) (signal [[3; -1]] 2) (99 # 100)
   = Return false <-> 1 <= (99 # 100)).
Proof.
  apply (match_car_sound_positive_correlation _ _ _ 1).
  - vm_compute. reflexivity.
  - reflexivity.
Defined.

(** ** The order of the two signals *)

Lemma Qmult_comm_eq (x y : Q) : x * y = y * x.
Proof.
  unfold Qmult. f_equal; [apply Z.mul_comm | apply Pos.mul_comm].
Qed.

Lemma row_dot_at_0_comm a : forall b, row_dot_at 0 a b = row_dot_at 0 b a.
Proof.
  unfold row_dot_at. simpl skipn.
  induction a as [|x a IH]; intros [|y b]; simpl; try reflexivity.
  rewrite IH, Qmult_comm_eq. reflexivity.
Qed.

Lemma exact_lag_sum_0_comm a : forall b, exact_lag_sum a b 0 = exact_lag_sum b a 0.
Proof.
  unfold exact_lag_sum.
  induction a as [|x a IH]; intros [|y b]; simpl; try reflexivity.
  rewrite IH, row_dot_at_0_comm. reflexivity.
Qed.

Lemma exact_correlation_swap reference_ts test_ts :
  exact_correlation_of test_ts reference_ts = rev (exact_correlation_of reference_ts test_ts).
Proof.
  unfold exact_correlation_of, exact_correlate_valid, flatten. simpl.
  rewrite (Nat.min_comm (shape0 (data test_ts))).
  set (n := Nat.min _ _).
  destruct (lt_eq_lt_dec (shape1 (data reference_ts)) (shape1 (data test_ts)))
    as [[Hlt | Heq] | Hgt].
  - destruct (Nat.leb_spec (shape1 (data reference_ts)) (shape1 (data test_ts)));
      [| lia].
    destruct (Nat.leb_spec (shape1 (data test_ts)) (shape1 (data reference_ts)));
      [lia |].
    simpl. rewrite !app_nil_r. reflexivity.
  - rewrite Heq, Nat.leb_refl. simpl.
    replace (shape1 (data test_ts) - shape1 (data test_ts) + 1)%nat
      with 1%nat by lia.
    simpl. now rewrite exact_lag_sum_0_comm.
  - destruct (Nat.leb_spec (shape1 (data reference_ts)) (shape1 (data test_ts)));
      [lia |].
    destruct (Nat.leb_spec (shape1 (data test_ts)) (shape1 (data reference_ts)));
      [| lia].
    simpl. rewrite !app_nil_r, rev_involutive. reflexivity.
Qed.

Lemma Forall2_sym {A} (R : A -> A -> Prop) l l' :
  (forall x y, R x y -> R y x) -> Forall2 R l l' -> Forall2 R l' l.
Proof. intros Hs H. induction H; constructor; auto. Qed.

Lemma Forall2_In_l {A B} (R : A -> B -> Prop) l l' x :
  Forall2 R l l' -> In x l -> exists y, In y l' /\ R x y.
Proof.
  induction 1 as [|a b l l' Hab _ IH]; intros Hin; [destruct Hin |].
  destruct Hin as [-> | Hin].
  - exists b. split; [now left | exact Hab].
  - destruct (IH Hin) as [y [Hy Hxy]]. exists y. split; [now right | exact Hxy].
Qed.

Lemma Forall2_In_r {A B} (R : A -> B -> Prop) l l' y :
  Forall2 R l l' -> In y l' -> exists x, In x l /\ R x y.
Proof.
  induction 1 as [|a b l l' Hab _ IH]; intros Hin; [destruct Hin |].
  destruct Hin as [-> | Hin].
  - exists a. split; [now left | exact Hab].
  - destruct (IH Hin) as [x [Hx Hxy]]. exists x. split; [now right | exact Hxy].
Qed.

Lemma exceeds_same_values_imp l l' threshold :
  Forall2 same_value l l' ->
  exceeds_after_normalizing l threshold ->
  exceeds_after_normalizing l' threshold.
Proof.
  intros HR [m [v [Hm [Hall [Hnz [Hv Hg]]]]]].
  destruct (Forall2_In_l _ _ _ _ HR Hm) as [m' [Hm' Em]].
  destruct (Forall2_In_l _ _ _ _ HR Hv) as [v' [Hv' Ev]].
  destruct m' as [m2 | | |]; simpl in Em; try contradiction.
  exists m2, v'. split; [exact Hm' |]. split; [| split; [| split]].
  - apply Forall_forall. intros x' Hx'.
    destruct (Forall2_In_r _ _ _ _ HR Hx') as [x [Hx Ex]].
    rewrite Forall_forall in Hall.
    apply (np_leq_same_value x x' (Finite m) (Finite m2) Ex Em).
    now apply Hall.
  - now rewrite <- Em.
  - exact Hv'.
  - rewrite <- (np_div_same_value v v' (Finite m) (Finite m2) Ev Em). exact Hg.
Qed.

Lemma exceeds_same_values l l' threshold :
  Forall2 same_value l l' ->
  exceeds_after_normalizing l threshold <->
  exceeds_after_normalizing l' threshold.
Proof.
  intros HR. split; apply exceeds_same_values_imp; [exact HR |].
  apply Forall2_sym; [apply same_value_sym | exact HR].
Qed.

Lemma exceeds_after_normalizing_rev l threshold :
  exceeds_after_normalizing (rev l) threshold <->
  exceeds_after_normalizing l threshold.
Proof.
  unfold exceeds_after_normalizing. split;
    intros [m [v [Hm [Hall [Hnz [Hv Hlt]]]]]]; exists m, v;
    repeat split; try assumption.
  - now apply in_rev.
  - rewrite Forall_forall in *. intros x Hx. apply Hall. now apply in_rev in Hx.
  - now apply in_rev.
  - now apply in_rev in Hm.
  - rewrite Forall_forall in *. intros x Hx. apply Hall. now apply in_rev.
  - now apply in_rev in Hv.
Qed.

(** With equal channel counts both orders multiply the same samples and
    add the products in the same order. *)
Lemma combine_swap {A B} (a : list A) :
  forall b : list B, combine b a = map (fun p => (snd p, fst p)) (combine a b).
Proof.
  induction a as [|x a IH]; intros [|y b]; simpl; try reflexivity.
  now rewrite IH.
Qed.

Lemma products_at_0_swap big :
  forall small,
    products_at 0 small big
    = map (fun p => (snd p, fst p)) (products_at 0 big small).
Proof.
  unfold products_at.
  induction big as [|b big IH]; intros [|s small]; simpl; try reflexivity.
  rewrite map_app, <- IH. f_equal. apply combine_swap.
Qed.

Lemma accumulate_swap pairs :
  accumulate (map (fun p => (snd p, fst p)) pairs) = accumulate pairs.
Proof.
  unfold accumulate. generalize (Finite 0).
  induction pairs as [|p l IH]; intros acc; simpl; [reflexivity |].
  rewrite IH. do 2 f_equal. unfold np_mul. f_equal. apply Qmult_comm_eq.
Qed.

Lemma correlation_of_swap_same_channels reference_ts test_ts :
  num_channels reference_ts = num_channels test_ts ->
  correlation_of test_ts reference_ts = correlation_of reference_ts test_ts.
Proof.
  intros Hc. unfold correlation_of, num_channels in *.
  rewrite (Nat.min_comm (shape0 (data test_ts))).
  rewrite !correlate_valid_same_channels by (simpl; congruence).
  unfold all_values, lag_sum. simpl.
  now rewrite products_at_0_swap, accumulate_swap.
Qed.

(** X3.  The matcher is symmetric when the two signals have the same
    number of channels, and also when binary64 computes the correlation
    exactly: exchanging reference and test then leaves the result as it
    is. *)
Theorem match_car_sound_symmetric reference_ts test_ts threshold p B :
  num_channels reference_ts = num_channels test_ts \/
  exact_in_binary64 p B (data reference_ts) (data test_ts) = true ->
  match_car_sound test_ts reference_ts threshold =
  match_car_sound reference_ts test_ts threshold.
Proof.
  intros [Hc | Hex].
  - apply match_same_correlation.
    now apply correlation_of_swap_same_channels.
  - apply match_agree.
    pose proof (correlation_exact p B reference_ts test_ts Hex) as H1.
    pose proof (correlation_exact p B test_ts reference_ts
                  (exact_in_binary64_sym _ _ _ _ Hex)) as H2.
    rewrite exact_correlation_swap, map_rev in H2.
    rewrite (exceeds_same_values _ _ threshold H2).
    rewrite exceeds_after_normalizing_rev.
    symmetry. now apply exceeds_same_values.
Qed.

(** Without either condition the order of the two signals can decide: a
    mono signal of three frames 1, 1, 1 and a stereo signal whose first
    channel is 1, 1e16, -1e16 and whose second channel is -1, -1, -1.  With
    the mono signal as the reference the products of lag 0 are added from
    the first to the last, the 1 is absorbed, and the correlation is 0 and
    -3; with the stereo signal as the reference they are added from the
    last to the first, and the correlation is -3 and 1. *)
Example order_of_accumulation_matters :
  correlation_of (signal [[1]; [1]; [1]] 1)
    (signal [[1; -1]; [10000000000000000; -1]; [-10000000000000000; -1]] 2)
  = [Finite 0; Finite (-3)] /\
  correlation_of
    (signal [[1; -1]; [10000000000000000; -1]; [-10000000000000000; -1]] 2)
    (signal [[1]; [1]; [1]] 1)
  = [Finite (-3); Finite 1] /\
  match_car_sound (signal [[1]; [1]; [1]] 1)
    (signal [[1; -1]; [10000000000000000; -1]; [-10000000000000000; -1]] 2)
    default_threshold
  = Return false /\
  match_car_sound
    (signal [[1; -1]; [10000000000000000; -1]; [-10000000000000000; -1]] 2)
    (signal [[1]; [1]; [1]] 1)
    default_threshold
  = Return true.
Proof. repeat split; vm_compute; reflexivity. Qed.

Lemma match_car_sound_symmetric_witness :
  match_car_sound (signal [[1; -4]; [0; 3]] 2) (signal [[1]; [2]] 1)
    default_threshold
  = match_car_sound (signal [[1]; [2]] 1) (signal [[1; -4]; [0; 3]] 2)
      default_threshold.
Proof.
  apply (match_car_sound_symmetric _ _ _ 0%nat 4%Z). right. reflexivity.
Defined.

(** ** Frames beyond the shorter signal *)

Lemma firstn_app_le {A} n (l extra : list A) :
  (n <= length l)%nat -> firstn n (l ++ extra) = firstn n l.
Proof.
  intros H. rewrite firstn_app.
  replace (n - length l)%nat with 0%nat by lia.
  simpl. apply app_nil_r.
Qed.

(** X4.  Only the frames up to the length of the shorter signal count:
    frames appended to the signal that is already at least as long as the
    other one never change the result. *)
Theorem match_car_sound_ignores_excess_frames
    reference_ts test_ts extra threshold :
  ((num_samples reference_ts <= num_samples test_ts)%nat ->
   match_car_sound reference_ts
     (with_data test_ts (append_frames (data test_ts) extra)) threshold
   = match_car_sound reference_ts test_ts threshold) /\
  ((num_samples test_ts <= num_samples reference_ts)%nat ->
   match_car_sound
     (with_data reference_ts (append_frames (data reference_ts) extra))
     test_ts threshold
   = match_car_sound reference_ts test_ts threshold).
Proof.
  unfold num_samples, shape0. split; intros H; apply match_same_correlation;
    unfold correlation_of, take, shape0; simpl; rewrite length_app.
  - replace (Nat.min (length (rows (data reference_ts)))
               (length (rows (data test_ts)) + length extra))
      with (Nat.min (length (rows (data reference_ts)))
              (length (rows (data test_ts)))) by lia.
    rewrite firstn_app_le by lia. reflexivity.
  - replace (Nat.min (length (rows (data reference_ts)) + length extra)
               (length (rows (data test_ts))))
      with (Nat.min (length (rows (data reference_ts)))
              (length (rows (data test_ts)))) by lia.
    rewrite firstn_app_le by lia. reflexivity.
Qed.

Lemma match_car_sound_ignores_excess_frames_witness :
  match_car_sound (signal [[1]; [2]] 1)
    (with_data (signal [[1]; [0]; [7]] 1)
       (append_frames (data (signal [[1]; [0]; [7]] 1)) [[9]; [9]]))
    default_threshold
  = match_car_sound (signal [[1]; [2]] 1) (signal [[1]; [0]; [7]] 1)
      default_threshold.
Proof.
  apply (proj1 (match_car_sound_ignores_excess_frames
                  (signal [[1]; [2]] 1) (signal [[1]; [0]; [7]] 1)
                  [[9]; [9]] default_threshold)).
  unfold num_samples, shape0. simpl. lia.
Defined.

(** ** A silent signal *)

(** X5.  A signal in which every sample is zero matches nothing: with a
    silent reference, or a silent test signal, the result is false for
    every other signal and every threshold. *)
Theorem match_car_sound_silent reference_ts test_ts threshold :
  silent (data reference_ts) \/ silent (data test_ts) ->
  match_car_sound reference_ts test_ts threshold = Return false.
Proof.
  intros H. apply match_all_correlation_zero.
  now apply correlation_of_silent.
Qed.

Lemma match_car_sound_silent_witness :
  match_car_sound (signal [[0; 0]; [0; 0]] 2) (signal [[3; 4; 5]] 3) (-5)
  = Return false.
Proof.
  apply match_car_sound_silent. left. repeat constructor.
Defined.

(** ** The gain of a recording *)

Lemma combine_products_scale_l k b :
  forall s,
    Qsum (map (fun p => fst p * snd p) (combine (map (Qmult k) b) s))
    == k * Qsum (map (fun p => fst p * snd p) (combine b s)).
Proof.
  induction b as [|x b IH]; intros [|y s]; simpl; try ring.
  rewrite IH. ring.
Qed.

Lemma combine_products_scale_r k b :
  forall s,
    Qsum (map (fun p => fst p * snd p) (combine b (map (Qmult k) s)))
    == k * Qsum (map (fun p => fst p * snd p) (combine b s)).
Proof.
  induction b as [|x b IH]; intros [|y s]; simpl; try ring.
  rewrite IH. ring.
Qed.

Lemma exact_lag_sum_scale_big k big :
  forall small j,
    exact_lag_sum (map (map (Qmult k)) big) small j == k * exact_lag_sum big small j.
Proof.
  unfold exact_lag_sum.
  induction big as [|r big IH]; intros [|s small] j; simpl; try ring.
  rewrite IH. unfold row_dot_at at 1 3.
  rewrite skipn_map, combine_products_scale_l. ring.
Qed.

Lemma exact_lag_sum_scale_small k big :
  forall small j,
    exact_lag_sum big (map (map (Qmult k)) small) j == k * exact_lag_sum big small j.
Proof.
  unfold exact_lag_sum.
  induction big as [|r big IH]; intros [|s small] j; simpl; try ring.
  rewrite IH. unfold row_dot_at at 1 3.
  rewrite combine_products_scale_r. ring.
Qed.

Lemma Forall2_map_same {A} (R : Q -> Q -> Prop) (f g : A -> Q) l :
  (forall x, R (f x) (g x)) -> Forall2 R (map f l) (map g l).
Proof. intros H. induction l; simpl; constructor; auto. Qed.

(** The correlation of a signal with a test signal whose samples are all
    multiplied by [k] is the correlation multiplied by [k]. *)
Lemma exact_correlation_scaled_test reference_ts test_ts k :
  Forall2 (fun v v' => v' == k * v)
    (exact_correlation_of reference_ts test_ts)
    (exact_correlation_of reference_ts
       (with_data test_ts (map_cells (Qmult k) (data test_ts)))).
Proof.
  unfold exact_correlation_of, exact_correlate_valid, flatten, take, shape0. simpl.
  rewrite length_map. set (n := Nat.min _ _).
  rewrite firstn_map.
  destruct (_ <=? _)%nat; simpl; rewrite !app_nil_r.
  - apply Forall2_map_same. intros j. apply exact_lag_sum_scale_big.
  - apply Forall2_rev_both, Forall2_map_same. intros j.
    apply exact_lag_sum_scale_small.
Qed.

Lemma exceeds_after_normalizing_scaled l l' k threshold :
  0 < k ->
  Forall2 (fun v v' => v' == k * v) l l' ->
  exceeds_after_normalizing (map Finite l) threshold ->
  exceeds_after_normalizing (map Finite l') threshold.
Proof.
  intros Hk HR [m [v [Hm [Hall [Hnz [Hv Hg]]]]]].
  assert (Hk0 : ~ k == 0).
  { intro E. rewrite E in Hk. now apply Qlt_irrefl in Hk. }
  apply in_map_iff in Hm. destruct Hm as [m0 [Em0 Hm]].
  injection Em0 as ->.
  apply in_map_iff in Hv. destruct Hv as [v0 [<- Hv]].
  destruct (Forall2_In_l _ _ _ _ HR Hm) as [m' [Hm' Em]].
  destruct (Forall2_In_l _ _ _ _ HR Hv) as [v' [Hv' Ev]].
  assert (Hnz' : ~ m' == 0).
  { rewrite Em. intro E. apply Qmult_integral in E.
    destruct E as [E | E]; contradiction. }
  exists m', (Finite v'). split; [now apply in_map |].
  split; [| split; [exact Hnz' | split; [now apply in_map |]]].
  - apply Forall_forall. intros x' Hx'.
    apply in_map_iff in Hx'. destruct Hx' as [x1 [<- Hx1]].
    destruct (Forall2_In_r _ _ _ _ HR Hx1) as [x [Hx Ex]].
    rewrite Forall_forall in Hall.
    pose proof (Hall (Finite x) (in_map Finite _ _ Hx)) as Hle.
    simpl in Hle. simpl. rewrite Ex, Em.
    apply Qmult_le_l; assumption.
  - rewrite np_div_finite in * by assumption.
    rewrite (round64_comp (v' / m') (v0 / m)); [exact Hg |].
    rewrite Ev, Em. field. split; assumption.
Qed.

(** X6.  Where binary64 computes the correlation exactly, the result does
    not depend on the gain of the test recording: for a test signal whose
    samples are those of another multiplied by one positive factor, the
    result is the same. *)
Theorem match_car_sound_gain_invariant reference_ts test_ts k threshold p B :
  0 < k ->
  exact_in_binary64 p B (data reference_ts) (data test_ts) = true ->
  exact_in_binary64 p B (data reference_ts)
    (map_cells (Qmult k) (data test_ts)) = true ->
  match_car_sound reference_ts
    (with_data test_ts (map_cells (Qmult k) (data test_ts))) threshold
  = match_car_sound reference_ts test_ts threshold.
Proof.
  intros Hk Hex Hexk. apply match_agree.
  pose proof (exact_correlation_scaled_test reference_ts test_ts k) as HR.
  pose proof (correlation_exact p B reference_ts test_ts Hex) as H1.
  pose proof (correlation_exact p B reference_ts
                (with_data test_ts (map_cells (Qmult k) (data test_ts)))
                Hexk) as H2.
  rewrite (exceeds_same_values _ _ threshold H1).
  rewrite (exceeds_same_values _ _ threshold H2).
  split.
  - apply exceeds_after_normalizing_scaled with (k := / k).
    + now apply Qinv_lt_0_compat.
    + clear - HR Hk. induction HR as [|a b l l' Hab _ IH]; constructor; auto.
      rewrite Hab. field. intro E. rewrite E in Hk.
      now apply Qlt_irrefl in Hk.
  - now apply exceeds_after_normalizing_scaled with (k := k).
Qed.

Lemma match_car_sound_gain_invariant_witness :
  match_car_sound (signal [[1]; [2]] 1)
    (with_data (signal [[1; -4]; [0; 3]] 2)
       (map_cells (Qmult (5 # 2)) (data (signal [[1; -4]; [0; 3]] 2))))
    default_threshold
  = match_car_sound (signal [[1]; [2]] 1) (signal [[1; -4]; [0; 3]] 2)
      default_threshold.
Proof.
  apply (match_car_sound_gain_invariant _ _ _ _ 1%nat 20%Z).
  - reflexivity.
  - reflexivity.
  - reflexivity.
Defined.

(** ** More on the direction *)

Lemma argmax_from_no_greater l :
  forall best bv i,
    Forall (fun x => x <= bv) l -> argmax_from best bv i l = best.
Proof.
  induction l as [|x l IH]; intros best bv i H; simpl; [reflexivity |].
  inversion H as [|? ? Hx Hl]; subst.
  destruct (Qgtb x bv) eqn:E.
  - apply Qgtb_true in E. exfalso. apply (Qlt_irrefl x).
    eapply Qle_lt_trans; eauto.
  - now apply IH.
Qed.

Lemma flatten_map_cells f a : flatten (map_cells f a) = map f (flatten a).
Proof.
  unfold flatten, map_cells. simpl. now rewrite concat_map.
Qed.

Lemma argmax_from_monotone f l :
  (forall x y, x < y -> f x < f y) ->
  (forall x y, x <= y -> f x <= f y) ->
  forall best bv i,
    argmax_from best (f bv) i (map f l) = argmax_from best bv i l.
Proof.
  intros Hlt Hle. induction l as [|x l IH]; intros best bv i; simpl;
    [reflexivity |].
  destruct (Qgtb x bv) eqn:E.
  - apply Qgtb_true in E.
    destruct (Qgtb (f x) (f bv)) eqn:E'; [apply IH |].
    apply Qgtb_false in E'. exfalso. apply (Qlt_irrefl (f x)).
    eapply Qle_lt_trans; [exact E' | now apply Hlt].
  - apply Qgtb_false in E.
    destruct (Qgtb (f x) (f bv)) eqn:E'; [| apply IH].
    apply Qgtb_true in E'. exfalso. apply (Qlt_irrefl (f x)).
    eapply Qle_lt_trans; [apply Hle; exact E | exact E'].
Qed.

Section DirectionFacts.

Variable MicGeom_from_file : string -> lib MicGeom.
Variable synthetic_Lp : TimeSamples -> MicGeom -> RectGrid -> Z -> lib ndarray.

Local Abbreviation beamform :=
  (beamform_and_detect_direction MicGeom_from_file synthetic_Lp).

Lemma beamform_on_map test_ts path grid ref_freq mg Lm :
  MicGeom_from_file path = Return mg ->
  synthetic_Lp test_ts mg grid ref_freq = Return Lm ->
  beamform test_ts path grid ref_freq = direction_of_map Lm.
Proof.
  intros Hmg HLm. unfold beamform_and_detect_direction.
  rewrite Hmg. simpl. rewrite HLm. reflexivity.
Qed.

(** X7.  A power map without cells (a grid with no points) makes the
    beamformer fail with the [ValueError] of [np.argmax]; no direction is
    returned. *)
Theorem beamform_empty_map_raises test_ts path grid ref_freq mg Lm :
  MicGeom_from_file path = Return mg ->
  synthetic_Lp test_ts mg grid ref_freq = Return Lm ->
  flatten Lm = [] ->
  beamform test_ts path grid ref_freq = Raise (PyExc ValueError).
Proof.
  intros Hmg HLm He. rewrite (beamform_on_map _ _ _ _ _ _ Hmg HLm).
  unfold direction_of_map. rewrite He. reflexivity.
Qed.

(** X8.  When no cell of the power map is larger than its first cell, in
    particular when all cells are equal, the answer is right-to-left: a map
    without a distinct peak is never reported as left-to-right. *)
Theorem beamform_flat_map_is_right_to_left
    test_ts path grid ref_freq mg Lm first others :
  MicGeom_from_file path = Return mg ->
  synthetic_Lp test_ts mg grid ref_freq = Return Lm ->
  flatten Lm = first :: others ->
  Forall (fun v => v <= first) others ->
  beamform test_ts path grid ref_freq = Return right_to_left.
Proof.
  intros Hmg HLm Hf Hall. rewrite (beamform_on_map _ _ _ _ _ _ Hmg HLm).
  unfold direction_of_map. rewrite Hf. unfold np_argmax.
  rewrite (argmax_from_no_greater _ _ _ _ Hall).
  unfold call, bind, unravel_index, snd.
  replace (0 mod shape1 Lm)%nat with 0%nat
    by (destruct (shape1 Lm); [reflexivity | now rewrite Nat.Div0.mod_0_l]).
  destruct (Z.ltb_spec 0 (Z.of_nat 0 - Z.of_nat (shape1 Lm / 2)));
    [lia | reflexivity].
Qed.

End DirectionFacts.

Lemma beamform_empty_map_raises_witness :
  beamform_and_detect_direction Stub.MicGeom_from_file
    (fun _ _ _ _ => Return {| rows := []; shape1 := 5 |})
    Stub.event "4_linear.xml"%string search_grid default_ref_freq
  = Raise (PyExc ValueError).
Proof.
  apply (beamform_empty_map_raises Stub.MicGeom_from_file
           (fun _ _ _ _ => Return {| rows := []; shape1 := 5 |})
           Stub.event "4_linear.xml"%string search_grid default_ref_freq
           (Stub.linear_array 4) {| rows := []; shape1 := 5 |});
    reflexivity.
Defined.

Lemma beamform_flat_map_is_right_to_left_witness :
  beamform_and_detect_direction Stub.MicGeom_from_file
    (fun _ _ _ _ => Return {| rows := [[7; 7; 7]; [7; 7; 7]]; shape1 := 3 |})
    Stub.event "4_linear.xml"%string search_grid default_ref_freq
  = Return right_to_left.
Proof.
  apply (beamform_flat_map_is_right_to_left Stub.MicGeom_from_file
           (fun _ _ _ _ =>
              Return {| rows := [[7; 7; 7]; [7; 7; 7]]; shape1 := 3 |})
           Stub.event "4_linear.xml"%string search_grid default_ref_freq
           (Stub.linear_array 4)
           {| rows := [[7; 7; 7]; [7; 7; 7]]; shape1 := 3 |}
           7 [7; 7; 7; 7; 7]).
  - reflexivity.
  - reflexivity.
  - reflexivity.
  - repeat constructor; discriminate.
Defined.

(** X9.  The direction depends only on the order of the power values:
    applying one strictly increasing function to every cell of the map (a
    calibration offset, a positive gain, the conversion to decibels) never
    changes the answer. *)
Theorem direction_invariant_under_increasing_map f Lm :
  (forall x y, x < y -> f x < f y) ->
  (forall x y, x <= y -> f x <= f y) ->
  direction_of_map (map_cells f Lm) = direction_of_map Lm.
Proof.
  intros Hlt Hle. unfold direction_of_map.
  rewrite flatten_map_cells. unfold unravel_index. simpl shape1.
  destruct (flatten Lm) as [|x t]; [reflexivity |]. simpl.
  rewrite (argmax_from_monotone f t Hlt Hle). reflexivity.
Qed.

Lemma direction_invariant_under_increasing_map_witness :
  direction_of_map (map_cells (fun x => 2 * x + 3) Stub.power_map)
  = direction_of_map Stub.power_map.
Proof.
  apply direction_invariant_under_increasing_map; intros x y H; lra.
Defined.

(** X10.  On a rectangular power map with fewer than three columns the
    answer is never left-to-right. *)
Theorem left_to_right_needs_three_columns Lm :
  wf_ndarray Lm ->
  direction_of_map Lm = Return left_to_right ->
  (3 <= shape1 Lm)%nat.
Proof.
  intros Hwf H. unfold direction_of_map in H.
  destruct (np_argmax (flatten Lm)) as [idx |] eqn:E;
    unfold call, bind, unravel_index, snd in H; [| discriminate].
  destruct (Z.ltb_spec 0 (Z.of_nat (idx mod shape1 Lm)
                          - Z.of_nat (shape1 Lm / 2))) as [Hpos | _];
    [| discriminate].
  destruct (shape1 Lm) as [|[|[|c]]] eqn:Ec; try lia.
  - exfalso. unfold flatten in E.
    rewrite concat_empty_rows in E; [simpl in E; discriminate |].
    unfold wf_ndarray in Hwf. now rewrite Ec in Hwf.
  - rewrite Nat.mod_1_r in Hpos. simpl in Hpos. lia.
  - assert (idx mod 2 < 2)%nat by (apply Nat.mod_upper_bound; lia).
    change (2 / 2)%nat with 1%nat in Hpos. lia.
Qed.

Lemma left_to_right_needs_three_columns_witness :
  (3 <= shape1 Stub.power_map)%nat.
Proof.
  apply left_to_right_needs_three_columns.
  - repeat constructor.
  - reflexivity.
Defined.

(** ** More on the frame count *)

Lemma exact_ratio (a fs : Z) :
  fs <> 0%Z -> (a mod fs = 0)%Z ->
  inject_Z a / inject_Z fs == inject_Z (a / fs).
Proof.
  intros Hfs Hmod.
  assert (Ea : a = (fs * (a / fs))%Z).
  { rewrite (Z.div_mod a fs Hfs) at 1. rewrite Hmod. lia. }
  rewrite Ea at 1. rewrite inject_Z_mult. field.
  intro E. apply Hfs. now apply (inject_Z_injective fs 0) in E.
Qed.

(** ** More on the resampler *)

Section ResamplerFacts.

Variable scipy_signal_resample : ndarray -> Z -> lib ndarray.

Local Abbreviation resample := (resample_acoular_ts scipy_signal_resample).

(** The outcome of a call, by cases. *)
Lemma resample_cases w ts target_fs :
  match deref (objects w) ts with
  | None => resample ts target_fs w = (w, Raise (PyExc RuntimeError))
  | Some obj =>
      if (sample_freq obj =? target_fs)%Z then
        resample ts target_fs w = (w, Return ts)
      else if (sample_freq obj =? 0)%Z then
        resample ts target_fs w = (w, Raise (PyExc ZeroDivisionError))
      else
        resample ts target_fs w =
        match scipy_signal_resample (data obj)
                (py_round (inject_Z (Z.of_nat (shape0 (data obj)))
                           * inject_Z target_fs / inject_Z (sample_freq obj)))
        with
        | Return d => (with_new w d target_fs, Return (length (objects w)))
        | Raise e => (w, Raise (PyExc e))
        end
  end.
Proof.
  unfold resample_acoular_ts, iobind, get_ts, lift, resampled_length.
  destruct (deref (objects w) ts) as [obj |]; [| reflexivity].
  destruct (sample_freq obj =? target_fs)%Z; simpl; [reflexivity |].
  destruct (sample_freq obj =? 0)%Z; [reflexivity |].
  destruct (scipy_signal_resample _ _); reflexivity.
Qed.

Lemma deref_with_new_old w d fs r o :
  deref (objects w) r = Some o ->
  deref (objects (with_new w d fs)) r = Some o.
Proof.
  intros H. unfold deref, with_new in *. simpl.
  rewrite nth_error_app1; [exact H |].
  apply nth_error_Some. congruence.
Qed.

Lemma deref_with_new_fresh w d fs :
  deref (objects (with_new w d fs)) (length (objects w))
  = Some {| data := d; sample_freq := fs |}.
Proof.
  unfold deref, with_new. simpl.
  now rewrite nth_error_app2, Nat.sub_diag by lia.
Qed.

(** When the library keeps its contract and the count is at least one. *)
Lemma resample_with_count w ts obj target_fs n :
  resample_contract scipy_signal_resample ->
  deref (objects w) ts = Some obj ->
  wf_ndarray (data obj) -> (1 <= shape0 (data obj))%nat ->
  sample_freq obj <> 0%Z -> sample_freq obj <> target_fs ->
  py_round (inject_Z (Z.of_nat (shape0 (data obj)))
            * inject_Z target_fs / inject_Z (sample_freq obj)) = n ->
  (1 <= n)%Z ->
  exists d,
    resample ts target_fs w
      = (with_new w d target_fs, Return (length (objects w))) /\
    Z.of_nat (shape0 d) = n /\ shape1 d = shape1 (data obj) /\ wf_ndarray d.
Proof.
  intros Hlib Hd Hwf Hlen H0 Hne Hn Hpos.
  destruct (Hlib _ n Hwf Hlen Hpos) as [y [Hy [Hy0 [Hy1 [Hywf _]]]]].
  exists y. repeat split; try assumption.
  rewrite (resample_other_rate scipy_signal_resample w ts obj target_fs Hd H0 Hne).
  rewrite Hn, Hy. reflexivity.
Qed.

(** X11.  For positive rates, with the product of length and target rate
    below [2^52] and both rates below [2^53], the frame count handed to
    the resampling library (the one binary64 arrives at) is the ratio
    [len(s) * r / s.rate] rounded to an integer, so it differs from that
    ratio by at most half a frame. *)
Theorem resample_count_within_half_frame w ts obj target_fs :
  deref (objects w) ts = Some obj ->
  (0 < sample_freq obj)%Z -> (0 < target_fs)%Z ->
  sample_freq obj <> target_fs ->
  count_within_binary64 (num_samples obj) target_fs (sample_freq obj) ->
  exists n,
    binary64_frame_count (num_samples obj) target_fs (sample_freq obj)
      = Some n /\
    - (1 # 2) <= inject_Z n
                 - inject_Z (Z.of_nat (num_samples obj)) * inject_Z target_fs
                   / inject_Z (sample_freq obj) /\
    inject_Z n
    - inject_Z (Z.of_nat (num_samples obj)) * inject_Z target_fs
      / inject_Z (sample_freq obj) <= 1 # 2 /\
    resample ts target_fs w =
    match scipy_signal_resample (data obj) n with
    | Return d => (with_new w d target_fs, Return (length (objects w)))
    | Raise e => (w, Raise (PyExc e))
    end.
Proof.
  intros Hd Hfs Hr Hne Hbound. eexists. split; [| split; [| split]].
  - now apply binary64_frame_count_exact.
  - apply py_round_within_half.
  - apply py_round_within_half.
  - apply (resample_other_rate scipy_signal_resample w ts obj target_fs Hd);
      [lia | exact Hne].
Qed.

(** X12.  When [len(s) * r] is an exact multiple of [s.rate] (the target
    rate is an integer multiple of the rate, for instance) and stays below
    [2^52], with both rates below [2^53], a non-empty signal is resampled
    to exactly [len(s) * r / s.rate] frames: rounding adds or drops
    nothing, in binary64 either. *)
Theorem resample_exact_ratio w ts obj target_fs :
  resample_contract scipy_signal_resample ->
  deref (objects w) ts = Some obj ->
  wf_ndarray (data obj) -> (1 <= num_samples obj)%nat ->
  (0 < sample_freq obj)%Z -> (0 < target_fs)%Z ->
  target_fs <> sample_freq obj ->
  count_within_binary64 (num_samples obj) target_fs (sample_freq obj) ->
  ((Z.of_nat (num_samples obj) * target_fs) mod sample_freq obj = 0)%Z ->
  exists d,
    resample ts target_fs w
      = (with_new w d target_fs, Return (length (objects w))) /\
    Z.of_nat (shape0 d)
      = (Z.of_nat (num_samples obj) * target_fs / sample_freq obj)%Z /\
    binary64_frame_count (num_samples obj) target_fs (sample_freq obj)
      = Some (Z.of_nat (shape0 d)) /\
    shape1 d = num_channels obj.
Proof.
  intros Hlib Hd Hwf Hlen Hfs Hr Hne Hbound Hmod.
  pose proof (binary64_frame_count_exact _ _ _ Hr Hfs Hbound) as Hb64.
  unfold num_samples, num_channels in *.
  set (a := (Z.of_nat (shape0 (data obj)) * target_fs)%Z) in *.
  assert (Hq : inject_Z (Z.of_nat (shape0 (data obj))) * inject_Z target_fs
               / inject_Z (sample_freq obj)
               == inject_Z (a / sample_freq obj)).
  { rewrite <- inject_Z_mult. apply exact_ratio; [lia | exact Hmod]. }
  assert (Hpos : (1 <= a / sample_freq obj)%Z).
  { assert (Ea : a = (sample_freq obj * (a / sample_freq obj))%Z).
    { rewrite (Z.div_mod a (sample_freq obj)) at 1 by lia.
      rewrite Hmod. lia. }
    assert (0 < a)%Z by (unfold a; nia). nia. }
  destruct (resample_with_count w ts obj target_fs (a / sample_freq obj)
              Hlib Hd Hwf Hlen) as [d [H1 [H2 [H3 _]]]]; try lia.
  - now apply py_round_eq.
  - exists d. repeat split; try assumption.
    rewrite Hb64, H2. f_equal. now apply py_round_eq.
Qed.


(** X14.  Whatever the outcome, resampling leaves every existing object
    where and as it was, prints nothing, leaves the clock alone and adds
    at most one object; when it raises, the world is exactly as before. *)
Theorem resample_only_adds w ts target_fs w' out :
  resample ts target_fs w = (w', out) ->
  (forall r o, deref (objects w) r = Some o -> deref (objects w') r = Some o) /\
  stdout w' = stdout w /\ clock w' = clock w /\
  (length (objects w') <= length (objects w) + 1)%nat /\
  (forall e, out = Raise e -> w' = w).
Proof.
  intros H. pose proof (resample_cases w ts target_fs) as C.
  assert (Keep : w' = w ->
    (forall r o, deref (objects w) r = Some o -> deref (objects w') r = Some o) /\
    stdout w' = stdout w /\ clock w' = clock w /\
    (length (objects w') <= length (objects w) + 1)%nat /\
    (forall e, out = Raise e -> w' = w)).
  { intros ->. repeat split; auto. lia. }
  destruct (deref (objects w) ts) as [obj |];
    [| rewrite C in H; injection H as <- _; now apply Keep].
  destruct (sample_freq obj =? target_fs)%Z;
    [rewrite C in H; injection H as <- _; now apply Keep |].
  destruct (sample_freq obj =? 0)%Z;
    [rewrite C in H; injection H as <- _; now apply Keep |].
  rewrite C in H. destruct (scipy_signal_resample _ _) as [d | e].
  - injection H as <- <-. repeat split.
    + intros r o Ho. now apply deref_with_new_old.
    + unfold with_new. simpl. rewrite length_app. simpl. lia.
    + discriminate.
  - injection H as <- _. now apply Keep.
Qed.

(** X15.  Whenever resampling returns, the object it returns is alive and
    has the target rate, be it the input itself or a new object. *)
Theorem resample_result_has_target_rate w ts target_fs w' ts' :
  resample ts target_fs w = (w', Return ts') ->
  exists obj', deref (objects w') ts' = Some obj' /\
               sample_freq obj' = target_fs.
Proof.
  intros H. pose proof (resample_cases w ts target_fs) as C.
  destruct (deref (objects w) ts) as [obj |] eqn:Hd;
    [| rewrite C in H; discriminate].
  destruct (Z.eqb_spec (sample_freq obj) target_fs) as [E | _].
  - rewrite C in H. injection H as <- <-. eauto.
  - destruct (sample_freq obj =? 0)%Z; [rewrite C in H; discriminate |].
    rewrite C in H. destruct (scipy_signal_resample _ _) as [d | e];
      [| discriminate].
    injection H as <- <-. eexists. split; [apply deref_with_new_fresh |].
    reflexivity.
Qed.

(** X16.  Up and back: a non-empty signal resampled to [k] times its rate
    ([k] at least 2, the product of length and the higher rate below
    [2^52], the higher rate below [2^53]) and the result resampled to the
    original rate is a signal with the original rate, frame count and
    channel count, in a third object; the original is untouched.  Both
    counts are the ones binary64 arrives at. *)
Theorem resample_up_and_back w ts obj k :
  resample_contract scipy_signal_resample ->
  deref (objects w) ts = Some obj ->
  wf_ndarray (data obj) -> (1 <= num_samples obj)%nat ->
  (0 < sample_freq obj)%Z -> (2 <= k)%Z ->
  count_within_binary64 (num_samples obj) (k * sample_freq obj)
    (sample_freq obj) ->
  exists d1 d2,
    resample ts (k * sample_freq obj) w
      = (with_new w d1 (k * sample_freq obj), Return (length (objects w))) /\
    resample (length (objects w)) (sample_freq obj)
      (with_new w d1 (k * sample_freq obj))
      = (with_new (with_new w d1 (k * sample_freq obj)) d2 (sample_freq obj),
         Return (S (length (objects w)))) /\
    Z.of_nat (shape0 d1) = (k * Z.of_nat (num_samples obj))%Z /\
    shape0 d2 = num_samples obj /\
    shape1 d2 = num_channels obj /\
    binary64_frame_count (num_samples obj) (k * sample_freq obj)
      (sample_freq obj) = Some (Z.of_nat (shape0 d1)) /\
    binary64_frame_count (shape0 d1) (sample_freq obj) (k * sample_freq obj)
      = Some (Z.of_nat (shape0 d2)) /\
    deref (objects (with_new (with_new w d1 (k * sample_freq obj)) d2
                      (sample_freq obj))) ts = Some obj.
Proof.
  intros Hlib Hd Hwf Hlen Hfs Hk Hbound. unfold num_samples, num_channels in *.
  set (fs := sample_freq obj) in *. set (len := shape0 (data obj)) in *.
  assert (Hfsq : ~ inject_Z fs == 0).
  { intro E. apply (inject_Z_injective fs 0) in E. lia. }
  assert (Hkq : ~ inject_Z k == 0).
  { intro E. apply (inject_Z_injective k 0) in E. lia. }
  assert (E1 : py_round (inject_Z (Z.of_nat len) * inject_Z (k * fs)
                         / inject_Z fs) = (k * Z.of_nat len)%Z).
  { apply py_round_eq. rewrite !inject_Z_mult. field. exact Hfsq. }
  destruct (resample_with_count w ts obj (k * fs) (k * Z.of_nat len)
              Hlib Hd Hwf Hlen) as [d1 [H1 [H1n [H1c H1wf]]]];
    try exact E1; try (fold fs; nia).
  pose proof (deref_with_new_fresh w d1 (k * fs)) as Hd1.
  assert (E2 : py_round (inject_Z (Z.of_nat (shape0 d1)) * inject_Z fs
                         / inject_Z (k * fs)) = Z.of_nat len).
  { apply py_round_eq. rewrite H1n, !inject_Z_mult. field. split; assumption. }
  destruct (resample_with_count (with_new w d1 (k * fs)) (length (objects w))
              {| data := d1; sample_freq := k * fs |} fs (Z.of_nat len)
              Hlib Hd1 H1wf) as [d2 [H2 [H2n [H2c _]]]];
    try exact E2; simpl; try nia.
  destruct Hbound as [Hb1 [Hb2 Hb3]].
  exists d1, d2. repeat split.
  - exact H1.
  - rewrite H2. unfold with_new at 3. simpl. rewrite length_app. simpl.
    now rewrite Nat.add_1_r.
  - exact H1n.
  - lia.
  - simpl in H2c. congruence.
  - rewrite binary64_frame_count_exact; [| nia | lia | repeat split; lia].
    fold len. rewrite E1, H1n. reflexivity.
  - rewrite binary64_frame_count_exact; [| lia | nia | repeat split; nia].
    rewrite E2, H2n. reflexivity.
  - change (deref (objects (with_new (with_new w d1 (k * fs)) d2 fs)) ts
            = Some obj).
    now apply deref_with_new_old, deref_with_new_old.
Qed.

End ResamplerFacts.

(** ** The loader *)

Section LoaderFacts.

Variable sf_read : string -> lib (sf_data * Z).

Local Abbreviation load := (load_audio_from_wav sf_read).

Lemma load_read_ok wav_file w d rate :
  sf_read wav_file = Return (d, rate) ->
  load wav_file w = (with_new w (as_frames d) rate, Return (length (objects w))).
Proof.
  intros H. unfold load_audio_from_wav, iobind, lift, new_TimeSamples.
  rewrite H. simpl. destruct d; reflexivity.
Qed.

Lemma load_read_fails wav_file w e :
  sf_read wav_file = Raise e -> load wav_file w = (w, Raise (PyExc e)).
Proof.
  intros H. unfold load_audio_from_wav, iobind, lift. now rewrite H.
Qed.

(** X17.  Loading creates exactly one new object, holding the rate that
    was read.  A mono file, read as a one-dimensional array of [n]
    samples, becomes a rectangular array of [n] frames with one channel
    whose single column is the samples; a multi-channel array is stored as
    it was read. *)
Theorem load_creates_one_signal wav_file w d rate :
  sf_read wav_file = Return (d, rate) ->
  exists a,
    load wav_file w = (with_new w a rate, Return (length (objects w))) /\
    deref (objects (with_new w a rate)) (length (objects w))
      = Some {| data := a; sample_freq := rate |} /\
    match d with
    | Data1D samples =>
        shape0 a = length samples /\ shape1 a = 1%nat /\
        wf_ndarray a /\ column 0 a = samples
    | Data2D frames => a = frames
    end.
Proof.
  intros H. exists (as_frames d). split; [now apply load_read_ok |].
  split.
  { unfold deref, with_new. simpl.
    now rewrite nth_error_app2, Nat.sub_diag by lia. }
  destruct d as [samples | frames]; [| reflexivity].
  unfold shape0, wf_ndarray, column. simpl. repeat split.
  - apply length_map.
  - apply Forall_forall. intros r Hr. apply in_map_iff in Hr.
    destruct Hr as [x [<- _]]. reflexivity.
  - rewrite map_map. simpl. apply map_id.
Qed.

End LoaderFacts.

(** ** More on the orchestrator *)

Section OrchestratorFacts.

Variable sf_read : string -> lib (sf_data * Z).
Variable scipy_signal_resample : ndarray -> Z -> lib ndarray.
Variable MicGeom_from_file : string -> lib MicGeom.
Variable synthetic_Lp : TimeSamples -> MicGeom -> RectGrid -> Z -> lib ndarray.
Variable basename : string -> string.

Local Abbreviation resample := (resample_acoular_ts scipy_signal_resample).
Local Abbreviation beamform :=
  (beamform_and_detect_direction MicGeom_from_file synthetic_Lp).
Local Abbreviation load := (load_audio_from_wav sf_read).
Local Abbreviation run :=
  (main sf_read scipy_signal_resample MicGeom_from_file synthetic_Lp basename).

Lemma get_ts_live w r o :
  deref (objects w) r = Some o -> get_ts r w = (w, Return o).
Proof. intros H. unfold get_ts. now rewrite H. Qed.

(** The part of [main] after the test signal has been resampled. *)
Lemma main_after_resample a b g w w1 w2 w3 r1 r2 r3 reference test :
  load a w = (w1, Return r1) ->
  load b w1 = (w2, Return r2) ->
  deref (objects w2) r1 = Some reference ->
  resample r2 (sample_freq reference) w2 = (w3, Return r3) ->
  deref (objects w3) r3 = Some test ->
  run a b g w =
  match match_car_sound reference test default_threshold with
  | Raise e => (w3, Raise e)
  | Return false =>
      (with_output w3 [TotalCars 0; DetectionTimes []],
       Return {| total_cars := 0; times := [] |})
  | Return true =>
      match beamform test g search_grid default_ref_freq with
      | Raise e => (w3, Raise e)
      | Return d =>
          (with_output w3 [CarDetected (basename b) d; TotalCars 1;
                           DetectionTimes [clock w3]],
           Return {| total_cars := 1; times := [clock w3] |})
      end
  end.
Proof.
  intros H1 H2 Hr H3 Ht.
  unfold main, iobind. rewrite H1, H2.
  rewrite (get_ts_live _ _ _ Hr), H3, (get_ts_live _ _ _ Ht).
  unfold lift at 1.
  destruct (match_car_sound reference test default_threshold) as [[|] | e];
    [| | reflexivity].
  - unfold lift, iobind.
    destruct (beamform test g search_grid default_ref_freq) as [d | e];
      [| reflexivity].
    unfold print, time_time, ret, with_output. simpl.
    rewrite <- !app_assoc. reflexivity.
  - unfold print, ret, with_output. simpl.
    rewrite <- !app_assoc. reflexivity.
Qed.

Lemma load_outcome wav_file w :
  (exists d rate,
     sf_read wav_file = Return (d, rate) /\
     load wav_file w
       = (with_new w (as_frames d) rate, Return (length (objects w)))) \/
  (exists e, load wav_file w = (w, Raise (PyExc e))).
Proof.
  destruct (sf_read wav_file) as [[d rate] | e] eqn:E.
  - left. exists d, rate. split; [reflexivity |]. now apply load_read_ok.
  - right. exists e. now apply load_read_fails.
Qed.

(** X18.  A run that is aborted by an exception has printed nothing: the
    output and the clock are as they were before the run. *)
Theorem main_abort_prints_nothing a b g w w' e :
  main sf_read scipy_signal_resample MicGeom_from_file synthetic_Lp basename
    a b g w = (w', Raise e) ->
  stdout w' = stdout w /\ clock w' = clock w.
Proof.
  intros H.
  destruct (load a w) as [w1 [r1 | e1]] eqn:E1.
  2:{ unfold main, iobind in H. rewrite E1 in H. injection H as <- _.
      exact (load_keeps_output sf_read _ _ _ _ E1). }
  destruct (load_keeps_output sf_read _ _ _ _ E1) as [S1 C1].
  destruct (load b w1) as [w2 [r2 | e2]] eqn:E2.
  2:{ unfold main, iobind in H. rewrite E1, E2 in H. injection H as <- _.
      destruct (load_keeps_output sf_read _ _ _ _ E2). split; congruence. }
  destruct (load_keeps_output sf_read _ _ _ _ E2) as [S2 C2].
  destruct (deref (objects w2) r1) as [reference |] eqn:Hr.
  2:{ unfold main, iobind in H. rewrite E1, E2 in H.
      unfold get_ts at 1 in H. rewrite Hr in H. injection H as <- _.
      split; congruence. }
  destruct (resample r2 (sample_freq reference) w2) as [w3 [r3 | e3]] eqn:E3.
  2:{ unfold main, iobind in H. rewrite E1, E2 in H.
      rewrite (get_ts_live _ _ _ Hr), E3 in H. injection H as <- _.
      destruct (resample_keeps_output scipy_signal_resample _ _ _ _ _ E3).
      split; congruence. }
  destruct (resample_keeps_output scipy_signal_resample _ _ _ _ _ E3)
    as [S3 C3].
  destruct (deref (objects w3) r3) as [test |] eqn:Ht.
  2:{ unfold main, iobind in H. rewrite E1, E2 in H.
      rewrite (get_ts_live _ _ _ Hr), E3 in H.
      unfold get_ts at 1 in H. rewrite Ht in H. injection H as <- _.
      split; congruence. }
  rewrite (main_after_resample a b g w w1 w2 w3 r1 r2 r3 reference test
             E1 E2 Hr E3 Ht) in H.
  destruct (match_car_sound reference test default_threshold) as [[|] | e0].
  - destruct (beamform test g search_grid default_ref_freq); [discriminate |].
    injection H as <- _. split; congruence.
  - discriminate.
  - injection H as <- _. split; congruence.
Qed.

Lemma deref_two_new w d1 fs1 d2 fs2 :
  deref (objects (with_new (with_new w d1 fs1) d2 fs2)) (length (objects w))
  = Some {| data := d1; sample_freq := fs1 |}.
Proof.
  apply deref_with_new_old. unfold deref, with_new. simpl.
  now rewrite nth_error_app2, Nat.sub_diag by lia.
Qed.

Lemma deref_second_new w d1 fs1 d2 fs2 :
  deref (objects (with_new (with_new w d1 fs1) d2 fs2))
        (length (objects (with_new w d1 fs1)))
  = Some {| data := d2; sample_freq := fs2 |}.
Proof.
  unfold deref, with_new. simpl.
  now rewrite nth_error_app2, Nat.sub_diag by lia.
Qed.

(** X19.  A silent reference recording can never yield a detection: every
    run that ends normally reports zero cars and an empty list of times
    and prints only the two report lines, without consulting the
    beamformer; and when the test file has the rate of the reference, the
    run does end normally. *)
Theorem main_silent_reference_detects_nothing a b g w d1 fs :
  sf_read a = Return (d1, fs) ->
  silent (as_frames d1) ->
  (forall w' rep,
     run a b g w = (w', Return rep) ->
     rep = {| total_cars := 0; times := [] |} /\
     stdout w' = stdout w ++ [TotalCars 0; DetectionTimes []]) /\
  (forall d2, sf_read b = Return (d2, fs) ->
     exists w', run a b g w
                = (w', Return {| total_cars := 0; times := [] |})).
Proof.
  intros Ha Hsilent.
  pose proof (load_read_ok sf_read a w d1 fs Ha) as E1.
  set (w1 := with_new w (as_frames d1) fs) in *.
  set (reference := {| data := as_frames d1; sample_freq := fs |}).
  assert (Hfalse : forall test,
            match_car_sound reference test default_threshold = Return false).
  { intros test. apply match_all_correlation_zero.
    now apply correlation_of_silent_reference. }
  split.
  - intros w' rep H.
    destruct (load_outcome b w1) as [[d2 [fs2 [Hb E2]]] | [e2 E2]].
    2:{ unfold main, iobind in H. rewrite E1, E2 in H. discriminate. }
    set (w2 := with_new w1 (as_frames d2) fs2) in *.
    assert (Hr : deref (objects w2) (length (objects w)) = Some reference)
      by apply deref_two_new.
    destruct (resample (length (objects w1)) (sample_freq reference) w2)
      as [w3 [r3 | e3]] eqn:E3.
    2:{ unfold main, iobind in H. rewrite E1, E2 in H.
        rewrite (get_ts_live _ _ _ Hr), E3 in H. discriminate. }
    destruct (resample_keeps_output scipy_signal_resample _ _ _ _ _ E3)
      as [S3 _].
    destruct (deref (objects w3) r3) as [test |] eqn:Ht.
    2:{ unfold main, iobind in H. rewrite E1, E2 in H.
        rewrite (get_ts_live _ _ _ Hr), E3 in H.
        unfold get_ts at 1 in H. rewrite Ht in H. discriminate. }
    rewrite (main_after_resample a b g w w1 w2 w3 _ _ r3 reference test
               E1 E2 Hr E3 Ht), Hfalse in H.
    injection H as <- <-. split; [reflexivity |].
    unfold with_output. simpl. now rewrite S3.
  - intros d2 Hb.
    pose proof (load_read_ok sf_read b w1 d2 fs Hb) as E2.
    set (w2 := with_new w1 (as_frames d2) fs) in *.
    assert (Hr : deref (objects w2) (length (objects w)) = Some reference)
      by apply deref_two_new.
    assert (Ht : deref (objects w2) (length (objects w1))
                 = Some {| data := as_frames d2; sample_freq := fs |})
      by apply deref_second_new.
    assert (E3 : resample (length (objects w1)) (sample_freq reference) w2
                 = (w2, Return (length (objects w1)))).
    { pose proof (resample_cases scipy_signal_resample w2
                    (length (objects w1)) (sample_freq reference)) as C.
      rewrite Ht in C. simpl in C. now rewrite Z.eqb_refl in C. }
    eexists.
    rewrite (main_after_resample a b g w w1 w2 w2 _ _ _ reference _
               E1 E2 Hr E3 Ht), Hfalse.
    reflexivity.
Qed.

(** X20.  When both files have the same sampling rate the test recording is
    not copied: whether the run then detects a car, detects none or is
    aborted, the store holds exactly the two loaded signals in addition to
    what it held before. *)
Theorem main_same_rate_makes_no_copy a b g w d1 d2 fs :
  sf_read a = Return (d1, fs) ->
  sf_read b = Return (d2, fs) ->
  objects (fst (run a b g w))
  = objects w ++ [{| data := as_frames d1; sample_freq := fs |};
                  {| data := as_frames d2; sample_freq := fs |}].
Proof.
  intros Ha Hb.
  pose proof (load_read_ok sf_read a w d1 fs Ha) as E1.
  set (w1 := with_new w (as_frames d1) fs) in *.
  pose proof (load_read_ok sf_read b w1 d2 fs Hb) as E2.
  set (w2 := with_new w1 (as_frames d2) fs) in *.
  set (reference := {| data := as_frames d1; sample_freq := fs |}).
  assert (Hr : deref (objects w2) (length (objects w)) = Some reference)
    by apply deref_two_new.
  assert (Ht : deref (objects w2) (length (objects w1))
               = Some {| data := as_frames d2; sample_freq := fs |})
    by apply deref_second_new.
  assert (E3 : resample (length (objects w1)) (sample_freq reference) w2
               = (w2, Return (length (objects w1)))).
  { pose proof (resample_cases scipy_signal_resample w2
                  (length (objects w1)) (sample_freq reference)) as C.
    rewrite Ht in C. simpl in C. now rewrite Z.eqb_refl in C. }
  rewrite (main_after_resample a b g w w1 w2 w2 _ _ _ reference _
             E1 E2 Hr E3 Ht).
  assert (Ew : objects w2 = objects w ++ [reference;
                 {| data := as_frames d2; sample_freq := fs |}]).
  { unfold w2, w1, with_new. simpl. now rewrite <- app_assoc. }
  destruct (match_car_sound _ _ _) as [[|] | e]; simpl; try exact Ew.
  destruct (beamform _ _ _ _); simpl; exact Ew.
Qed.

End OrchestratorFacts.

(** ** Further runs on concrete inputs *)

Lemma resample_count_within_half_frame_witness :
  exists n,
    binary64_frame_count (num_samples Stub.event) 6000 (sample_freq Stub.event)
      = Some n /\
    - (1 # 2) <= inject_Z n
                 - inject_Z (Z.of_nat (num_samples Stub.event)) * inject_Z 6000
                   / inject_Z (sample_freq Stub.event) /\
    inject_Z n
    - inject_Z (Z.of_nat (num_samples Stub.event)) * inject_Z 6000
      / inject_Z (sample_freq Stub.event) <= 1 # 2 /\
    resample_acoular_ts Stub.scipy_signal_resample 0%nat 6000 Stub.loaded =
    match Stub.scipy_signal_resample (data Stub.event) n with
    | Return d => (with_new Stub.loaded d 6000, Return (length (objects Stub.loaded)))
    | Raise e => (Stub.loaded, Raise (PyExc e))
    end.
Proof.
  apply (resample_count_within_half_frame Stub.scipy_signal_resample
           Stub.loaded 0%nat Stub.event 6000).
  - reflexivity.
  - reflexivity.
  - reflexivity.
  - discriminate.
  - repeat split.
Defined.

Lemma resample_exact_ratio_witness :
  exists d,
    resample_acoular_ts Stub.scipy_signal_resample 0%nat 48000 Stub.loaded
    = (with_new Stub.loaded d 48000, Return 1%nat) /\
    Z.of_nat (shape0 d) = 12%Z /\
    binary64_frame_count 4 48000 16000 = Some (Z.of_nat (shape0 d)) /\
    shape1 d = 4%nat.
Proof.
  apply (resample_exact_ratio Stub.scipy_signal_resample
           Stub.loaded 0%nat Stub.event 48000).
  - exact stub_resample_contract.
  - reflexivity.
  - repeat constructor.
  - unfold num_samples, shape0. simpl. lia.
  - reflexivity.
  - reflexivity.
  - discriminate.
  - repeat split.
  - reflexivity.
Defined.


Lemma resample_only_adds_witness :
  stdout (fst (resample_acoular_ts Stub.scipy_signal_resample 0%nat 8000
                 Stub.loaded))
  = stdout Stub.loaded /\
  deref (objects (fst (resample_acoular_ts Stub.scipy_signal_resample 0%nat
                         8000 Stub.loaded))) 0%nat
  = Some Stub.event.
Proof.
  destruct (resample_only_adds Stub.scipy_signal_resample
              Stub.loaded 0%nat 8000
              (fst (resample_acoular_ts Stub.scipy_signal_resample 0%nat 8000
                      Stub.loaded))
              (snd (resample_acoular_ts Stub.scipy_signal_resample 0%nat 8000
                      Stub.loaded)))
    as [Hkeep [Hout _]].
  - apply surjective_pairing.
  - split; [exact Hout |]. apply Hkeep. reflexivity.
Defined.

Lemma resample_result_has_target_rate_witness :
  exists obj',
    deref (objects (with_new Stub.loaded
                      {| rows := repeat [1; 0; 0; 0] 2; shape1 := 4 |} 8000))
          1%nat = Some obj' /\
    sample_freq obj' = 8000%Z.
Proof.
  apply (resample_result_has_target_rate Stub.scipy_signal_resample
           Stub.loaded 0%nat 8000).
  reflexivity.
Defined.

Lemma resample_up_and_back_witness :
  exists d1 d2,
    resample_acoular_ts Stub.scipy_signal_resample 0%nat 48000 Stub.loaded
    = (with_new Stub.loaded d1 48000, Return 1%nat) /\
    resample_acoular_ts Stub.scipy_signal_resample 1%nat 16000
      (with_new Stub.loaded d1 48000)
    = (with_new (with_new Stub.loaded d1 48000) d2 16000, Return 2%nat) /\
    shape0 d2 = 4%nat /\ shape1 d2 = 4%nat.
Proof.
  destruct (resample_up_and_back Stub.scipy_signal_resample
              Stub.loaded 0%nat Stub.event 3)
    as [d1 [d2 [H1 [H2 [_ [H3 [H4 _]]]]]]].
  - exact stub_resample_contract.
  - reflexivity.
  - repeat constructor.
  - unfold num_samples, shape0. simpl. lia.
  - reflexivity.
  - discriminate.
  - repeat split.
  - exists d1, d2. repeat split; assumption.
Defined.

Lemma load_creates_one_signal_witness :
  exists a,
    load_audio_from_wav Stub.sf_read "car.wav"%string Stub.start
    = (with_new Stub.start a 16000, Return 0%nat) /\
    deref (objects (with_new Stub.start a 16000)) 0%nat
    = Some {| data := a; sample_freq := 16000 |} /\
    (shape0 a = 4%nat /\ shape1 a = 1%nat /\
     wf_ndarray a /\ column 0 a = Stub.mono_tone).
Proof.
  apply (load_creates_one_signal Stub.sf_read "car.wav"%string Stub.start
           (Data1D Stub.mono_tone) 16000).
  reflexivity.
Defined.

Lemma main_abort_prints_nothing_witness :
  stdout (fst (main Stub.sf_read Stub.scipy_signal_resample
                 Stub.MicGeom_from_file Stub.synthetic_Lp Stub.basename
                 "car.wav"%string "event.wav"%string "2_linear.xml"%string
                 Stub.start))
  = stdout Stub.start /\
  clock (fst (main Stub.sf_read Stub.scipy_signal_resample
                Stub.MicGeom_from_file Stub.synthetic_Lp Stub.basename
                "car.wav"%string "event.wav"%string "2_linear.xml"%string
                Stub.start))
  = clock Stub.start.
Proof.
  apply (main_abort_prints_nothing Stub.sf_read Stub.scipy_signal_resample
           Stub.MicGeom_from_file Stub.synthetic_Lp Stub.basename
           "car.wav"%string "event.wav"%string "2_linear.xml"%string
           Stub.start _ (PyExc ValueError)).
  reflexivity.
Defined.

Lemma main_silent_reference_detects_nothing_witness :
  exists w',
    main Stub.sf_read Stub.scipy_signal_resample Stub.MicGeom_from_file
      Stub.synthetic_Lp Stub.basename
      "silence.wav"%string "event.wav"%string "4_linear.xml"%string Stub.start
    = (w', Return {| total_cars := 0; times := [] |}).
Proof.
  apply (proj2 (main_silent_reference_detects_nothing
                  Stub.sf_read Stub.scipy_signal_resample
                  Stub.MicGeom_from_file Stub.synthetic_Lp Stub.basename
                  "silence.wav"%string "event.wav"%string
                  "4_linear.xml"%string Stub.start
                  (Data1D [0; 0; 0; 0]) 16000 eq_refl
                  ltac:(repeat constructor))
           (Data2D Stub.four_mics)).
  reflexivity.
Defined.

Lemma main_same_rate_makes_no_copy_witness :
  objects (fst (main Stub.sf_read Stub.scipy_signal_resample
                  Stub.MicGeom_from_file Stub.synthetic_Lp Stub.basename
                  "car.wav"%string "event.wav"%string "4_linear.xml"%string
                  Stub.start))
  = objects Stub.start
    ++ [{| data := as_frames (Data1D Stub.mono_tone); sample_freq := 16000 |};
        {| data := as_frames (Data2D Stub.four_mics); sample_freq := 16000 |}].
Proof.
  apply (main_same_rate_makes_no_copy Stub.sf_read Stub.scipy_signal_resample
           Stub.MicGeom_from_file Stub.synthetic_Lp Stub.basename
           "car.wav"%string "event.wav"%string "4_linear.xml"%string
           Stub.start (Data1D Stub.mono_tone) (Data2D Stub.four_mics) 16000);
    reflexivity.
Defined.
